(** * ninav: gallery loader, viewer state machine, favorites, timeline and
    view routing of the photo-gallery frontend.

    A shallow embedding of the stateful logic of the TypeScript frontend
    ([frontend/src/App.tsx], [components/Lightbox.tsx], [lib/api.ts] and the
    hooks [useImageViewer], [useFavorites], [useTimeline], [useViewRouting]),
    followed by the properties proved about it.

    Conventions of the embedding.
    - A JavaScript string is a [string] (a sequence of bytes, read as UTF-8).
    - An array length or a page number is a [nat]; the [total] of a listing is
      a [Count], a natural number or [Infinity] (the initial value of the
      accumulator of [fetchAllImages], and what [JSON.parse] yields for an
      out-of-range literal).
    - A [Set<string>] is a [gset string].
    - The numbers of the viewer (zoom level, pan offsets, pointer coordinates)
      are rationals [Q]: every zoom level the code can produce is a multiple
      of 1/4 and is computed exactly by the floating-point operations; sums of
      pointer coordinates are taken exactly, and what is proved of pan offsets
      are bounds of a clamp, which returns its argument or a bound.
    - An awaited request is a function from its arguments to a [FetchResult];
      a React state update is applied in the program order in which the
      handler issues it. *)

From Stdlib Require Import Ascii String DecimalString QArith Qminmax Qround Lqa.
From stdpp Require Import gmap strings list sorting.

#[local] Set Warnings "-clear-no-such-hyp".

Local Open Scope string_scope.
Local Open Scope list_scope.
Local Open Scope nat_scope.

(* ===================================================================== *)
(** * Part I: the embedding                                               *)
(* ===================================================================== *)

(** ** [types/media.ts] *)
Module Media.

Record ImageMetadata := {
  id : string;
  name : string;
  relative_path : string;
  url : string;
  size_bytes : nat;
  modified_at : string
}.

(** [total: number]: a count, or the non-finite value. *)
Inductive Count := Fin (n : nat) | Infinity.

(** [n < total] for an array length [n]. *)
Definition ltCount (n : nat) (total : Count) : bool :=
  match total with Fin t => n <? t | Infinity => true end.

(** [total > n]: the same comparison, written the other way round. *)
Definition gtCount (total : Count) (n : nat) : bool := ltCount n total.

(** [n <= total], the relation of the gallery invariant. *)
Definition leCount (n : nat) (total : Count) : Prop :=
  match total with Fin t => n <= t | Infinity => True end.

(** [Math.min(total, n)]. *)
Definition minCount (total : Count) (n : nat) : nat :=
  match total with Fin t => Nat.min t n | Infinity => n end.

Record ImageListResponse := {
  items : list ImageMetadata;
  page : nat;
  page_size : nat;
  total : Count
}.

(** What a rejected promise carries: an [Error] with its message, or any
    other thrown value. *)
Inductive Thrown := ErrorObject (message : string) | OtherValue.

(** The outcome of [await fetchImages({ page, page_size })]. *)
Inductive FetchResult := Resolved (r : ImageListResponse) | Rejected (e : Thrown).

(** [fetchImages], as seen by its callers: page and page size to outcome. *)
Definition Server := nat -> nat -> FetchResult.

End Media.

(** ** [hooks/useViewRouting.ts] *)
Module ViewRouting.

Record ViewRoute := {
  viewTitle : string;
  viewSubtitle : string;
  isFavoritesView : bool;
  isTimelineView : bool;
  showGrid : bool;
  showFaces : bool
}.

Definition viewTitleOf (activeView : string) : string :=
  if String.eqb activeView "all" then "All Photos"
  else if String.eqb activeView "faces" then "People"
  else if String.eqb activeView "favorites" then "Favorites"
  else if String.eqb activeView "timeline" then "Timeline"
  else if String.eqb activeView "memories" then "Memories"
  else "All Photos".

Definition viewSubtitleOf (activeView : string) : string :=
  if String.eqb activeView "all" then
    "Seamlessly browse every asset in your shared folder before layering on face clusters and smart albums."
  else if String.eqb activeView "faces" then
    "Browse discovered people clusters and drill into the faces assigned to each person."
  else if String.eqb activeView "favorites" then
    "All the images you loved in one dedicated board. Favorites stay synced across sessions."
  else if String.eqb activeView "timeline" then ""
  else if String.eqb activeView "memories" then
    "Smart collections curated by events, places, and people. Relive your highlights automatically."
  else "Feature coming soon. Keep browsing in All Photos while we finish this workspace.".

Definition useViewRouting (activeView : string) : ViewRoute :=
  let isFavoritesView := String.eqb activeView "favorites" in
  let isTimelineView := String.eqb activeView "timeline" in
  {| viewTitle := viewTitleOf activeView;
     viewSubtitle := viewSubtitleOf activeView;
     isFavoritesView := isFavoritesView;
     isTimelineView := isTimelineView;
     showGrid := String.eqb activeView "all" || isFavoritesView || isTimelineView;
     showFaces := String.eqb activeView "faces" |}.

(** The keys the two [switch] statements name. *)
Definition knownViews : list string :=
  ["all"; "faces"; "favorites"; "timeline"; "memories"].

End ViewRouting.

(** ** [hooks/useFavorites.ts] *)
Module Favorites.

(** The updater passed to [setFavorites] by [toggleFavorite]. *)
Definition toggleFavorite (prev : gset string) (imageId : string) : gset string :=
  let next := prev in
  if decide (imageId ∈ next) then next ∖ {[ imageId ]} else next ∪ {[ imageId ]}.

Definition isFavorite (favorites : gset string) (imageId : string) : bool :=
  bool_decide (imageId ∈ favorites).

Definition favoriteCount (favorites : gset string) : nat := size favorites.

End Favorites.

(** ** [lib/api.ts] *)
Module Api.
Import Media.

(** *** String helpers standing for the JavaScript built-ins *)

(** [s.startsWith(p)]. *)
Definition startsWith (s p : string) : bool := String.prefix p s.

Fixpoint dropString (n : nat) (s : string) : string :=
  match n, s with
  | 0, _ => s
  | S n', String _ s' => dropString n' s'
  | S _, EmptyString => EmptyString
  end.

(** [s.replace(pat, rep)] for a string pattern: the first occurrence only. *)
Fixpoint replaceFirst (pat rep s : string) : string :=
  if String.prefix pat s then rep +:+ dropString (String.length pat) s
  else match s with
       | EmptyString => EmptyString
       | String c s' => String c (replaceFirst pat rep s')
       end.

(** [s.split(sep)] for a one-character separator. *)
Fixpoint split (sep : ascii) (s : string) : list string :=
  match s with
  | EmptyString => [EmptyString]
  | String c s' =>
      if Ascii.eqb c sep then EmptyString :: split sep s'
      else match split sep s' with
           | seg :: rest => String c seg :: rest
           | [] => [String c EmptyString]
           end
  end.

Definition hexDigit (n : nat) : ascii :=
  match n with
  | 0 => "0" | 1 => "1" | 2 => "2" | 3 => "3" | 4 => "4" | 5 => "5"
  | 6 => "6" | 7 => "7" | 8 => "8" | 9 => "9" | 10 => "A" | 11 => "B"
  | 12 => "C" | 13 => "D" | 14 => "E" | _ => "F"
  end%char.

(** The characters [encodeURIComponent] leaves alone:
    [A-Z a-z 0-9 - _ . ! ~ * ' ( )]. *)
Definition unreserved (c : ascii) : bool :=
  let n := nat_of_ascii c in
  ((65 <=? n) && (n <=? 90)) || ((97 <=? n) && (n <=? 122))
  || ((48 <=? n) && (n <=? 57))
  || (n =? 45) || (n =? 95) || (n =? 46) || (n =? 33) || (n =? 126)
  || (n =? 42) || (n =? 39) || (n =? 40) || (n =? 41).

(** [encodeURIComponent] on the UTF-8 bytes of a well-formed string. *)
Fixpoint encodeURIComponent (s : string) : string :=
  match s with
  | EmptyString => EmptyString
  | String c s' =>
      if unreserved c then String c (encodeURIComponent s')
      else let n := nat_of_ascii c in
           String "%" (String (hexDigit (n / 16)) (String (hexDigit (n mod 16))
             (encodeURIComponent s')))
  end.

(** The [thumbnail] argument: [boolean | 'small' | 'medium' | 'large']. *)
Inductive ThumbnailSize := small | medium | large.
Inductive Thumbnail := ThumbFlag (b : bool) | ThumbSize (s : ThumbnailSize).

Definition sizeName (s : ThumbnailSize) : string :=
  match s with small => "small" | medium => "medium" | large => "large" end.

(** [if (thumbnail)]: a non-empty string is truthy. *)
Definition truthy (t : Thumbnail) : bool :=
  match t with ThumbFlag b => b | ThumbSize _ => true end.

(** [resolveMediaUrl(path, thumbnail)]; [origin] is what [getApiOrigin()]
    returns in the running page. *)
Definition resolveMediaUrl (origin : string) (path : string) (thumbnail : Thumbnail) : string :=
  if startsWith path "http://" || startsWith path "https://" then path
  else
    let normalized := if startsWith path "/" then path else "/" +:+ path in
    if truthy thumbnail then
      let size := match thumbnail with ThumbSize s => sizeName s | ThumbFlag _ => "medium" end in
      let mediaPath := replaceFirst "/media/" "" normalized in
      let encodedPath := String.concat "/" (map encodeURIComponent (split "/" mediaPath)) in
      origin +:+ "/thumbnails/" +:+ size +:+ "/" +:+ encodedPath
    else
      let pathOnly := replaceFirst "/media/" "" normalized in
      let encodedPath := String.concat "/" (map encodeURIComponent (split "/" pathOnly)) in
      origin +:+ "/media/" +:+ encodedPath.

(** *** [fetchAllImages] *)

Record AllImages := { allItems : list ImageMetadata; allTotal : nat }.

(** How a call of an [async] function ends. *)
Inductive Outcome (A : Type) := Returned (a : A) | Threw (e : Thrown).
Arguments Returned {A} a.
Arguments Threw {A} e.

(** [Number.isFinite(total) ? total : items.length]. *)
Definition finiteOr (total : Count) (fallback : nat) : nat :=
  match total with Fin t => t | Infinity => fallback end.

(** The [while] loop of [fetchAllImages], entered at its test. [fuel] bounds
    the number of requests; [None] means the bound was reached. *)
Fixpoint fetchAllLoop (fetchImages : Server) (batchSize : nat)
    (fuel : nat) (page : nat) (total : Count) (items : list ImageMetadata)
    : option (Outcome AllImages) :=
  if negb (ltCount (List.length items) total) then
    Some (Returned {| allItems := items; allTotal := finiteOr total (List.length items) |})
  else
    match fuel with
    | 0 => None
    | S fuel' =>
        match fetchImages page batchSize with
        | Rejected e => Some (Threw e)
        | Resolved response =>
            let items' := items ++ Media.items response in
            let total' := Media.total response in
            if length (Media.items response) =? 0 then
              Some (Returned {| allItems := items';
                                allTotal := finiteOr total' (List.length items') |})
            else fetchAllLoop fetchImages batchSize fuel' (page + 1) total' items'
        end
    end.

Definition fetchAllImages (fetchImages : Server) (batchSize : nat) (fuel : nat)
    : option (Outcome AllImages) :=
  fetchAllLoop fetchImages batchSize fuel 1 Infinity [].

(** *** Vocabulary for the properties of [fetchAllImages] *)

(** The items and the total of the answer to page [p]. *)
Definition pageItems (srv : Server) (bs p : nat) : list ImageMetadata :=
  match srv p bs with Resolved r => Media.items r | Rejected _ => [] end.

Definition pageTotal (srv : Server) (bs p : nat) : Count :=
  match srv p bs with Resolved r => Media.total r | Rejected _ => Infinity end.

(** The items of [k] consecutive pages starting at page [p], in order. *)
Definition pagesFrom (srv : Server) (bs p k : nat) : list ImageMetadata :=
  concat (map (pageItems srv bs) (seq p k)).

(** The items of pages [1..n]. *)
Definition pagesUpTo (srv : Server) (bs n : nat) : list ImageMetadata :=
  pagesFrom srv bs 1 n.

(** Page [n] is answered, and it is empty or brings the accumulated count
    up to the total it reports. *)
Definition stopsAt (srv : Server) (bs n : nat) : Prop :=
  exists r, srv n bs = Resolved r /\
    (Media.items r = [] \/
     ltCount (List.length (pagesUpTo srv bs n)) (Media.total r) = false).

(** Page [k] is answered, is not empty and leaves the count below the total
    it reports: the loop goes on after it. *)
Definition continuesAt (srv : Server) (bs k : nat) : Prop :=
  exists r, srv k bs = Resolved r /\ Media.items r <> [] /\
    ltCount (List.length (pagesUpTo srv bs k)) (Media.total r) = true.


(** *** [getFolderFromPath] *)

(** [s.lastIndexOf(c)] for a one-character needle; [None] stands for -1. *)
Fixpoint lastIndexOf (c : ascii) (s : string) : option nat :=
  match s with
  | EmptyString => None
  | String a s' =>
      match lastIndexOf c s' with
      | Some i => Some (S i)
      | None => if Ascii.eqb a c then Some 0 else None
      end
  end.

(** [getFolderFromPath(relativePath)]; [None] is [undefined]. *)
Definition getFolderFromPath (relativePath : option string) : string :=
  match relativePath with
  | None => ""
  | Some path =>
      if String.eqb path "" then ""
      else match lastIndexOf "/" path with
           | None => ""
           | Some index => substring 0 index path
           end
  end.

(** *** [formatFileSize], for a size that is a natural number below 2^53 (a
    number that a double holds exactly; dividing it by 1024 is exact too);
    sizes are binary numbers [N] so that large ones can be computed with *)

Definition units : list string := ["B"; "KB"; "MB"; "GB"; "TB"].

(** The [while] loop: [remaining] bounds its turns, and four are enough
    because every turn raises [unitIndex], which stays below 4. *)
Fixpoint scaleLoop (remaining : nat) (value : Q) (unitIndex : nat) : Q * nat :=
  if Qle_bool 1024 value && (unitIndex <? List.length units - 1) then
    match remaining with
    | 0 => (value, unitIndex)
    | S remaining' => scaleLoop remaining' (value / 1024)%Q (unitIndex + 1)
    end
  else (value, unitIndex).

Definition decimalZ (n : Z) : string := NilZero.string_of_uint (N.to_uint (Z.to_N n)).

(** [value.toFixed(digits)] for [digits] 0 or 1 and a value that is not
    negative: the integer [n] nearest to [value * 10^digits], the larger one
    on a tie, printed with the decimal point before its last [digits]
    digits. *)
Definition toFixed (digits : nat) (value : Q) : string :=
  match digits with
  | 0 => decimalZ (Qfloor (value + (1 # 2)))
  | _ =>
      let n := Qfloor (value * 10 + (1 # 2)) in
      decimalZ (n / 10) +:+ "." +:+ decimalZ (n mod 10)
  end.

Definition formatFileSize (bytes : N) : string :=
  let '(value, unitIndex) := scaleLoop 4 (inject_Z (Z.of_N bytes)) 0 in
  toFixed (if Qle_bool 10 value then 0 else 1) value +:+ " " +:+ nth unitIndex units "".

(** 1024 to the power [k]. *)
Definition pow1024 (k : nat) : Q := inject_Z (1024 ^ Z.of_nat k).

(** *** Vocabulary for the properties of [resolveMediaUrl] *)

(** [s.includes(pat)]. *)
Fixpoint includes (pat s : string) : bool :=
  String.prefix pat s
  || match s with
     | EmptyString => false
     | String _ s' => includes pat s'
     end.

(** Every character of [s] passes [test]. *)
Fixpoint allChars (test : ascii -> bool) (s : string) : bool :=
  match s with
  | EmptyString => true
  | String c s' => test c && allChars test s'
  end.

(** The characters of an encoded path: unreserved ones, the percent sign and
    the slash. *)
Definition urlSafe (c : ascii) : bool :=
  unreserved c || Ascii.eqb c "%" || Ascii.eqb c "/".

(** A path is absolute when it starts with a scheme [resolveMediaUrl] knows. *)
Definition isAbsolute (path : string) : bool :=
  startsWith path "http://" || startsWith path "https://".

(** The path with every segment encoded. *)
Definition encodePath (path : string) : string :=
  String.concat "/" (map encodeURIComponent (split "/" path)).

(** The server answers page [p] of size [bs] with the slice of [lib] at offset
    [(p - 1) * bs] and reports the length of [lib] as the total. *)
Definition pagesOf (srv : Server) (bs : nat) (lib : list ImageMetadata) : Prop :=
  forall p, exists r, srv p bs = Resolved r /\
    Media.items r = take bs (drop ((p - 1) * bs) lib) /\
    Media.total r = Fin (List.length lib).

End Api.

(** ** [App.tsx]: the gallery loader (the effect keyed on [galleryVersion]) *)
Module Gallery.
Import Media.

Record GalleryState := {
  items : list ImageMetadata;
  total : Count;
  loading : bool;
  error : option string
}.

(** The argument of [useState<GalleryState>]. *)
Definition initialGallery : GalleryState :=
  {| items := []; total := Fin 0; loading := true; error := None |}.

(** What the loader does, in the order it does it: a request sent, or a
    state passed to React by [setGallery]. *)
Inductive Step :=
| Request (page page_size : nat)
| Update (st : GalleryState).

(** A run of the loader: its steps, the state it leaves, and whether it
    came to its end within the fuel it was given. *)
Record Run := { log : list Step; final : GalleryState; completed : bool }.

Definition andThen (steps : list Step) (r : Run) : Run :=
  {| log := steps ++ log r; final := final r; completed := completed r |}.

Definition done (steps : list Step) (st : GalleryState) : Run :=
  {| log := steps; final := st; completed := true |}.

(** [error instanceof Error ? error.message : 'Unknown error']. *)
Definition errorMessage (e : Thrown) : string :=
  match e with ErrorObject m => m | OtherValue => "Unknown error" end.

(** The loop of [loadRemainingPages], entered at its test.
    [cancelled p] is the value of the effect's [cancelled] flag when the
    request for page [p] has been answered; nothing runs between that
    moment and the next test of the loop, so the test reads the same value.
    [items] is the local accumulator, [st] the state held by React. *)
Fixpoint loadRemainingLoop (fetchImages : Server) (cancelled : nat -> bool)
    (fuel : nat) (total : Count) (currentPage : nat)
    (items : list ImageMetadata) (st : GalleryState) : Run :=
  if ltCount (List.length items) total && negb (cancelled (currentPage - 1)) then
    match fuel with
    | 0 => {| log := []; final := st; completed := false |}
    | S fuel' =>
        match fetchImages currentPage 60 with
        | Resolved page =>
            if negb (cancelled currentPage) && (0 <? List.length (Media.items page)) then
              let items' := items ++ Media.items page in
              let st' := {| items := items'; total := Gallery.total st;
                            loading := loading st; error := error st |} in
              andThen [Request currentPage 60; Update st']
                (loadRemainingLoop fetchImages cancelled fuel' total (currentPage + 1) items' st')
            else done [Request currentPage 60] st
        | Rejected _ => done [Request currentPage 60] st
        end
    end
  else done [] st.

(** [loadRemainingPages(total, loaded)]. The accumulator starts from
    [gallery.items], where [gallery] is the binding of the render that
    installed the effect; [loaded] is not used by the body. *)
Definition loadRemainingPages (gallery : GalleryState) (fetchImages : Server)
    (cancelled : nat -> bool) (fuel : nat) (total : Count) (loaded : nat)
    (st : GalleryState) : Run :=
  let currentPage := 2 in
  let items := Gallery.items gallery in
  loadRemainingLoop fetchImages cancelled fuel total currentPage items st.

(** [load()], run on the React state [st]. *)
Definition load (gallery : GalleryState) (fetchImages : Server)
    (cancelled : nat -> bool) (fuel : nat) (st : GalleryState) : Run :=
  let st1 := {| items := items st; total := total st; loading := true; error := None |} in
  match fetchImages 1 30 with
  | Resolved firstPage =>
      if negb (cancelled 1) then
        let st2 := {| items := Media.items firstPage; total := Media.total firstPage;
                      loading := false; error := None |} in
        if gtCount (Media.total firstPage) (List.length (Media.items firstPage)) then
          andThen [Update st1; Request 1 30; Update st2]
            (loadRemainingPages gallery fetchImages cancelled fuel
               (Media.total firstPage) (List.length (Media.items firstPage)) st2)
        else done [Update st1; Request 1 30; Update st2] st2
      else done [Update st1; Request 1 30] st1
  | Rejected e =>
      if negb (cancelled 1) then
        let st2 := {| items := items st1; total := total st1; loading := false;
                      error := Some (errorMessage e) |} in
        done [Update st1; Request 1 30; Update st2] st2
      else done [Update st1; Request 1 30] st1
  end.

(** *** Vocabulary for the properties of the loader *)

Definition requests (steps : list Step) : list (nat * nat) :=
  omap (fun s => match s with Request p n => Some (p, n) | Update _ => None end) steps.

Definition updates (steps : list Step) : list GalleryState :=
  omap (fun s => match s with Update st => Some st | Request _ _ => None end) steps.

(** The items of the answer to page [p] as the loader asks for it: size 30
    for page 1, size 60 after it. *)
Definition servedPage (srv : Server) (p : nat) : list ImageMetadata :=
  match srv p (if p =? 1 then 30 else 60) with
  | Resolved r => Media.items r
  | Rejected _ => []
  end.

(** The image list in server order, as far as page [n]. *)
Definition servedUpTo (srv : Server) (n : nat) : list ImageMetadata :=
  concat (map (servedPage srv) (seq 1 n)).

(** The number of items fetched over pages [1..n]. *)
Definition fetchedCount (srv : Server) (n : nat) : nat :=
  sum_list (map (fun p => List.length (servedPage srv p)) (seq 1 n)).

(** The gallery invariant of the data model. *)
Definition withinTotal (st : GalleryState) : Prop :=
  leCount (List.length (items st)) (total st).

(** What a background update looks like: the total is the one the loop was
    given, and the list is an accumulator that was still below that total,
    followed by the items of the page just answered. *)
Definition backgroundUpdate (srv : Server) (total0 : Count) (st' : GalleryState) : Prop :=
  total st' = total0 /\
  exists acc p r, 2 <= p /\ srv p 60 = Resolved r /\ Media.items r <> [] /\
    items st' = acc ++ Media.items r /\
    ltCount (List.length acc) total0 = true.

End Gallery.

(** ** [hooks/useTimeline.ts]: the timeline grouper *)
Module Timeline.
Import Media.

(** The [Date] built-ins the hook calls. Their results depend on the time
    zone and the locale of the host, so they are taken as given; dates are
    valid ones (the getters return integers). *)
Class DateApi := {
  JsDate : Type;
  (** [new Date(value)] for a string. *)
  newDate : string -> JsDate;
  (** [new Date()]. *)
  now : JsDate;
  (** A copy of the date moved by [setDate(getDate() - 1)]. *)
  previousDay : JsDate -> JsDate;
  getFullYear : JsDate -> Z;
  getMonth : JsDate -> Z;
  getDate : JsDate -> Z;
  getTime : JsDate -> Z;
  toDateString : JsDate -> string;
  (** [toLocaleDateString('en-US', { weekday: 'long', month: 'long', day: 'numeric' })]. *)
  longDayLabel : JsDate -> string;
  (** [toLocaleDateString('en-US', { month: 'short' })]. *)
  shortMonthLabel : JsDate -> string
}.

(** [String(n)] and [n.toString()] for an integer. *)
Definition stringOfZ (n : Z) : string := NilZero.string_of_int (Z.to_int n).

(** [s.padStart(2, '0')]. *)
Definition padStart2 (s : string) : string :=
  match String.length s with
  | 0 => "00"
  | 1 => "0" +:+ s
  | _ => s
  end.

Section WithDates.
Context `{DateApi}.

Record TimelineGroup := {
  key : string;
  date : JsDate;
  label : string;
  dayLabel : string;
  monthLabel : string;
  yearLabel : string;
  images : list ImageMetadata;
  count : nat;
  isNewMonth : bool;
  isNewYear : bool
}.

(** The template literal that names the day of an image. *)
Definition dayKeyOf (image : ImageMetadata) : string :=
  let date := newDate (modified_at image) in
  stringOfZ (getFullYear date) +:+ "-" +:+ padStart2 (stringOfZ (getMonth date + 1))
    +:+ "-" +:+ padStart2 (stringOfZ (getDate date)).

(** The [Map] from day key to images, in insertion order:
    [if (!groups.has(k)) groups.set(k, []); groups.get(k).push(image)]. *)
Fixpoint pushImage (dayKey : string) (image : ImageMetadata)
    (groups : list (string * list ImageMetadata)) : list (string * list ImageMetadata) :=
  match groups with
  | [] => [(dayKey, [image])]
  | (k, imgs) :: rest =>
      if String.eqb k dayKey then (k, imgs ++ [image]) :: rest
      else (k, imgs) :: pushImage dayKey image rest
  end.

Definition groupByDay (images : list ImageMetadata) : list (string * list ImageMetadata) :=
  fold_left (fun groups image => pushImage (dayKeyOf image) image groups) images [].

(** The callback of [.map(([key, images]) => ...)]. *)
Definition makeGroup (entry : string * list ImageMetadata) : TimelineGroup :=
  let (key, images) := entry in
  let date := newDate key in
  let yesterday := previousDay now in
  let isToday := String.eqb (toDateString date) (toDateString now) in
  let isYesterday := String.eqb (toDateString date) (toDateString yesterday) in
  let dayLabel :=
    if isToday then "Today"
    else if isYesterday then "Yesterday"
    else longDayLabel date in
  {| key := key;
     date := date;
     label := dayLabel;
     dayLabel := stringOfZ (getDate date);
     monthLabel := shortMonthLabel date;
     yearLabel := stringOfZ (getFullYear date);
     images := images;
     count := List.length images;
     isNewMonth := false;
     isNewYear := false |}.

(** [Array.prototype.sort(compare)]: a stable sort; [a] stays before [b]
    when [compare(a, b) <= 0]. *)
Fixpoint insertBy {A : Type} (compare : A -> A -> Z) (a : A) (sorted : list A) : list A :=
  match sorted with
  | [] => [a]
  | b :: rest =>
      if (compare a b <=? 0)%Z then a :: b :: rest
      else b :: insertBy compare a rest
  end.

Definition sortBy {A : Type} (compare : A -> A -> Z) (l : list A) : list A :=
  foldr (insertBy compare) [] l.

(** [(a, b) => b.date.getTime() - a.date.getTime()]. *)
Definition byDateDescending (a b : TimelineGroup) : Z :=
  (getTime (date b) - getTime (date a))%Z.

Definition setFlags (g : TimelineGroup) (newMonth newYear : bool) : TimelineGroup :=
  {| key := key g; date := date g; label := label g; dayLabel := dayLabel g;
     monthLabel := monthLabel g; yearLabel := yearLabel g; images := images g;
     count := count g; isNewMonth := newMonth; isNewYear := newYear |}.

(** The body of the marking loop for [current], given [sortedGroups[i - 1]]. *)
Definition markGroup (previous : option TimelineGroup) (current : TimelineGroup)
    : TimelineGroup :=
  match previous with
  | None => setFlags current true true
  | Some previous =>
      if negb (getFullYear (date current) =? getFullYear (date previous))%Z then
        setFlags current true true
      else if negb (getMonth (date current) =? getMonth (date previous))%Z then
        setFlags current true (isNewYear current)
      else current
  end.

(** The marking loop from index [i] on, [previous] being the group at
    index [i - 1] as the loop left it. *)
Fixpoint markFrom (previous : option TimelineGroup) (groups : list TimelineGroup)
    : list TimelineGroup :=
  match groups with
  | [] => []
  | current :: rest =>
      let current' := markGroup previous current in
      current' :: markFrom (Some current') rest
  end.

(** The value of [timelineGroups]. *)
Definition timelineGroups (images : list ImageMetadata) : list TimelineGroup :=
  let sortedGroups := sortBy byDateDescending (map makeGroup (groupByDay images)) in
  markFrom None sortedGroups.

(** *** Vocabulary for the properties of the grouper *)

(** [a] may stand before [b] in an order descending by date. *)
Definition notEarlier (a b : TimelineGroup) : Prop :=
  (getTime (date b) <= getTime (date a))%Z.

(** [groups] has one entry for each day that occurs among [images], and the
    entry of a day holds the images of that day, in their order. *)
Definition dayGroupsOf (images : list ImageMetadata)
    (groups : list (string * list ImageMetadata)) : Prop :=
  NoDup (map fst groups) /\
  (forall k imgs, (k, imgs) ∈ groups ->
     imgs <> [] /\ imgs = filter (fun image => dayKeyOf image = k) images) /\
  (forall image, image ∈ images -> dayKeyOf image ∈ map fst groups).

(** The group the marking loop found at index [i - 1]. *)
Definition predecessor (groups : list TimelineGroup) (i : nat) : option TimelineGroup :=
  match i with 0 => None | S j => groups !! j end.

End WithDates.

End Timeline.

(** ** Sample data for the worked examples *)
Module Samples.
Import Media.

Definition decimal (n : nat) : string := NilZero.string_of_uint (Nat.to_uint n).

Definition sampleImage (k : nat) : ImageMetadata :=
  {| id := "img_" +:+ decimal k;
     name := "photo_" +:+ decimal k +:+ ".jpg";
     relative_path := "trips/photo_" +:+ decimal k +:+ ".jpg";
     url := "/media/trips/photo_" +:+ decimal k +:+ ".jpg";
     size_bytes := 1024;
     modified_at := "2025-01-05T10:00:00" |}.

(** A library of [n] images, in server order. *)
Definition library (n : nat) : list ImageMetadata := map sampleImage (seq 0 n).

(** A server that answers page [page] of size [page_size] with the slice of
    the library starting at offset [(page - 1) * page_size], and reports the
    size of the library as the total. *)
Definition pagedServer (lib : list ImageMetadata) : Server :=
  fun page page_size =>
    Resolved {| items := take page_size (drop ((page - 1) * page_size) lib);
                page := page;
                page_size := page_size;
                total := Fin (List.length lib) |}.

(** A server whose every request fails with the given message. *)
Definition failingServer (message : string) : Server :=
  fun _ _ => Rejected (ErrorObject message).

(** A server whose first answer carries two items and reports a total of one. *)
Definition overfullServer : Server :=
  fun page page_size =>
    Resolved {| items := if page =? 1 then [sampleImage 0; sampleImage 1] else [];
                page := page;
                page_size := page_size;
                total := Fin 1 |}.

(** A server with one more image on every page and no finite total. *)
Definition endlessServer : Server :=
  fun page page_size =>
    Resolved {| items := [sampleImage page]; page := page; page_size := page_size;
                total := Infinity |}.

Definition neverCancelled : nat -> bool := fun _ => false.

(** A host in the UTC time zone for the timeline examples. A date is the
    number of its day since 1970-01-01; time stamps start with YYYY-MM-DD and
    carry no offset, so that the calendar day is read off their first ten
    characters. The labels are ISO dates, not en-US texts. *)
Definition digitsValue (s : string) : Z :=
  fold_left (fun acc c => (10 * acc + (Z.of_nat (nat_of_ascii c) - 48))%Z)
    (list_ascii_of_string s) 0%Z.

Definition daysFromCivil (y m d : Z) : Z :=
  (let y' := if m <=? 2 then y - 1 else y in
   let era := y' / 400 in
   let yoe := y' - era * 400 in
   let doy := (153 * (if 2 <? m then m - 3 else m + 9) + 2) / 5 + d - 1 in
   let doe := yoe * 365 + yoe / 4 - yoe / 100 + doy in
   era * 146097 + doe - 719468)%Z.

Definition civilFromDays (z : Z) : Z * Z * Z :=
  (let z' := z + 719468 in
   let era := z' / 146097 in
   let doe := z' - era * 146097 in
   let yoe := (doe - doe / 1460 + doe / 36524 - doe / 146096) / 365 in
   let doy := doe - (365 * yoe + yoe / 4 - yoe / 100) in
   let mp := (5 * doy + 2) / 153 in
   let d := doy - (153 * mp + 2) / 5 + 1 in
   let m := if mp <? 10 then mp + 3 else mp - 9 in
   (if m <=? 2 then yoe + era * 400 + 1 else yoe + era * 400, m, d))%Z.

Definition isoDate (z : Z) : string :=
  let '(y, m, d) := civilFromDays z in
  Timeline.stringOfZ y +:+ "-" +:+ Timeline.padStart2 (Timeline.stringOfZ m)
    +:+ "-" +:+ Timeline.padStart2 (Timeline.stringOfZ d).

Definition utcHost : Timeline.DateApi :=
  {| Timeline.JsDate := Z;
     Timeline.newDate := fun s =>
       daysFromCivil (digitsValue (substring 0 4 s)) (digitsValue (substring 5 2 s))
         (digitsValue (substring 8 2 s));
     Timeline.now := daysFromCivil 2025 3 1;
     Timeline.previousDay := fun z => (z - 1)%Z;
     Timeline.getFullYear := fun z => (civilFromDays z).1.1;
     Timeline.getMonth := fun z => ((civilFromDays z).1.2 - 1)%Z;
     Timeline.getDate := fun z => (civilFromDays z).2;
     Timeline.getTime := fun z => (z * 86400000)%Z;
     Timeline.toDateString := isoDate;
     Timeline.longDayLabel := isoDate;
     Timeline.shortMonthLabel := fun z => Timeline.stringOfZ (civilFromDays z).1.2 |}.

Definition imageOn (k : nat) (timestamp : string) : ImageMetadata :=
  {| id := id (sampleImage k); name := name (sampleImage k);
     relative_path := relative_path (sampleImage k); url := url (sampleImage k);
     size_bytes := size_bytes (sampleImage k); modified_at := timestamp |}.

End Samples.

(** ** The image viewer: what [components/Lightbox.tsx] and
    [hooks/useImageViewer.ts] share *)
Module Viewer.

Inductive ViewerMode := frame | fill | zoom.

#[global] Instance ViewerMode_eq_dec : EqDecision ViewerMode.
Proof. solve_decision. Defined.

Record Point := { x : Q; y : Q }.

(** The literal [{ x: 0, y: 0 }]. *)
Definition origin : Point := {| x := 0; y := 0 |}.

Definition MIN_ZOOM : Q := 1 # 2.
Definition MAX_ZOOM : Q := 5.
Definition ZOOM_STEP : Q := 1 # 4.

(** [a < b] on numbers, as a test. *)
Definition Qlt_bool (a b : Q) : bool := negb (Qle_bool b a).

(** [Math.max(MIN_ZOOM, Math.min(MAX_ZOOM, z))]. *)
Definition clampZoom (z : Q) : Q := Qmax MIN_ZOOM (Qmin MAX_ZOOM z).

(** The entry after [mode] in [['frame', 'fill', 'zoom']], wrapping round. *)
Definition nextMode (mode : ViewerMode) : ViewerMode :=
  match mode with frame => fill | fill => zoom | zoom => frame end.

(** What the user does to the viewer. *)
Inductive Event :=
| Wheel (deltaY : Q)
| PointerDown (pointerId : nat) (clientX clientY : Q)
| PointerMove (pointerId : nat) (clientX clientY : Q)
| PointerUp (pointerId : nat)
| Cycle
| ToggleZoom.


(** The range the zoom level is clamped to. *)
Definition zoomInRange (z : Q) : Prop := (MIN_ZOOM <= z <= MAX_ZOOM)%Q.

(** Wheel and pointer events, as opposed to the mode commands. *)
Definition isPointerOrWheel (ev : Event) : bool :=
  match ev with
  | Wheel _ | PointerDown _ _ _ | PointerMove _ _ _ | PointerUp _ => true
  | Cycle | ToggleZoom => false
  end.

End Viewer.

(** ** [components/Lightbox.tsx]: the viewer of the lightbox.
    The transient notice ([flashLightboxNotice]) is left out. *)
Module Lightbox.
Import Viewer.

(** [viewerRef.current], when the element is mounted. *)
Record ViewerElement := { clientWidth : nat; clientHeight : nat }.

(** The contents of [panStartRef]. *)
Record PanStart := { pointerId : nat; x : Q; y : Q; panX : Q; panY : Q }.

Record State := {
  viewerMode : ViewerMode;
  baseViewerMode : ViewerMode;
  zoomLevel : Q;
  panOffset : Point;
  isPanning : bool;
  panStartRef : option PanStart
}.

Definition initialState : State :=
  {| viewerMode := frame; baseViewerMode := frame; zoomLevel := 1;
     panOffset := origin; isPanning := false; panStartRef := None |}.

Definition resetZoomState (s : State) : State :=
  {| viewerMode := frame; baseViewerMode := baseViewerMode s; zoomLevel := 1;
     panOffset := origin; isPanning := false; panStartRef := None |}.

Definition clampPanOffset (viewer : option ViewerElement) (offset : Point) (zoom : Q) : Point :=
  match viewer with
  | None => origin
  | Some v =>
      if Qle_bool zoom 1 then origin
      else
        let maxX := ((zoom - 1) * inject_Z (Z.of_nat (clientWidth v)) / 2)%Q in
        let maxY := ((zoom - 1) * inject_Z (Z.of_nat (clientHeight v)) / 2)%Q in
        {| Viewer.x := Qmax (- maxX) (Qmin maxX (Viewer.x offset));
           Viewer.y := Qmax (- maxY) (Qmin maxY (Viewer.y offset)) |}
  end.

(** The updater of [handleViewerModeChange(mode)], with the state changes
    it issues. *)
Definition handleViewerModeChange (mode : ViewerMode) (s : State) : State :=
  let current := viewerMode s in
  if decide (current = mode) then s
  else if decide (mode <> zoom) then
    {| viewerMode := mode; baseViewerMode := mode; zoomLevel := 1;
       panOffset := origin; isPanning := false; panStartRef := None |}
  else if decide (current <> zoom) then
    {| viewerMode := mode; baseViewerMode := baseViewerMode s; zoomLevel := 3 # 2;
       panOffset := origin; isPanning := isPanning s; panStartRef := None |}
  else
    {| viewerMode := mode; baseViewerMode := baseViewerMode s; zoomLevel := zoomLevel s;
       panOffset := panOffset s; isPanning := isPanning s; panStartRef := panStartRef s |}.

Definition cycleViewerMode (s : State) : State :=
  handleViewerModeChange (nextMode (viewerMode s)) s.

Definition toggleZoomShortcut (s : State) : State :=
  if decide (viewerMode s = zoom) then handleViewerModeChange (baseViewerMode s) s
  else handleViewerModeChange zoom s.

Definition handleViewerWheel (viewer : option ViewerElement) (deltaY : Q) (s : State) : State :=
  let s1 := if decide (viewerMode s <> zoom) then handleViewerModeChange zoom s else s in
  let direction := if Qlt_bool deltaY 0%Q then 1%Q else (-1)%Q in
  let next := clampZoom (zoomLevel s1 + direction * ZOOM_STEP)%Q in
  {| viewerMode := viewerMode s1; baseViewerMode := baseViewerMode s1; zoomLevel := next;
     panOffset := clampPanOffset viewer (panOffset s1) next;
     isPanning := isPanning s1; panStartRef := panStartRef s1 |}.

Definition handleViewerPointerDown (id : nat) (clientX clientY : Q) (s : State) : State :=
  if decide (viewerMode s <> zoom) then s
  else
    {| viewerMode := viewerMode s; baseViewerMode := baseViewerMode s;
       zoomLevel := zoomLevel s; panOffset := panOffset s; isPanning := true;
       panStartRef := Some {| pointerId := id; x := clientX; y := clientY;
                              panX := Viewer.x (panOffset s);
                              panY := Viewer.y (panOffset s) |} |}.

Definition handleViewerPointerMove (viewer : option ViewerElement)
    (id : nat) (clientX clientY : Q) (s : State) : State :=
  if decide (viewerMode s <> zoom) then s
  else
    match panStartRef s with
    | None => s
    | Some start =>
        if decide (pointerId start <> id) then s
        else
          let deltaX := (clientX - x start)%Q in
          let deltaY := (clientY - y start)%Q in
          {| viewerMode := viewerMode s; baseViewerMode := baseViewerMode s;
             zoomLevel := zoomLevel s;
             panOffset := clampPanOffset viewer
                            {| Viewer.x := (panX start + deltaX)%Q;
                               Viewer.y := (panY start + deltaY)%Q |}
                            (zoomLevel s);
             isPanning := isPanning s; panStartRef := panStartRef s |}
    end.

Definition handleViewerPointerUpOrCancel (id : nat) (s : State) : State :=
  match panStartRef s with
  | Some start =>
      if decide (pointerId start <> id) then s
      else
        {| viewerMode := viewerMode s; baseViewerMode := baseViewerMode s;
           zoomLevel := zoomLevel s; panOffset := panOffset s; isPanning := false;
           panStartRef := None |}
  | None => s
  end.

(** One event, handled with the viewer element as it is found. *)
Definition step (viewer : option ViewerElement) (s : State) (ev : Event) : State :=
  match ev with
  | Wheel deltaY => handleViewerWheel viewer deltaY s
  | PointerDown id cx cy => handleViewerPointerDown id cx cy s
  | PointerMove id cx cy => handleViewerPointerMove viewer id cx cy s
  | PointerUp id => handleViewerPointerUpOrCancel id s
  | Cycle => cycleViewerMode s
  | ToggleZoom => toggleZoomShortcut s
  end.

Definition run (viewer : option ViewerElement) (evs : list Event) : State :=
  fold_left (step viewer) evs initialState.

(** The states gone through, the latest first. *)
Fixpoint history (viewer : option ViewerElement) (s : State) (evs : list Event)
    (past : list State) : list State :=
  match evs with
  | [] => s :: past
  | ev :: rest => history viewer (step viewer s ev) rest (s :: past)
  end.

(** The mode of the latest state that was not in zoom mode. *)
Fixpoint lastNonZoomMode (states : list State) : ViewerMode :=
  match states with
  | [] => frame
  | s :: older => if decide (viewerMode s <> zoom) then viewerMode s else lastNonZoomMode older
  end.

(** Both axes within the bound [(zoom - 1) * dimension / 2]. *)
Definition panWithin (v : ViewerElement) (s : State) : Prop :=
  (- ((zoomLevel s - 1) * inject_Z (Z.of_nat (clientWidth v)) / 2)
     <= Viewer.x (panOffset s)
     <= (zoomLevel s - 1) * inject_Z (Z.of_nat (clientWidth v)) / 2)%Q /\
  (- ((zoomLevel s - 1) * inject_Z (Z.of_nat (clientHeight v)) / 2)
     <= Viewer.y (panOffset s)
     <= (zoomLevel s - 1) * inject_Z (Z.of_nat (clientHeight v)) / 2)%Q.


(** What every reachable state of the lightbox viewer satisfies, for the
    viewer element [viewer]. *)
Definition invariant (viewer : option ViewerElement) (s : State) : Prop :=
  baseViewerMode s <> zoom /\
  (viewerMode s <> zoom ->
     zoomLevel s = 1%Q /\ panOffset s = origin /\ baseViewerMode s = viewerMode s) /\
  ((zoomLevel s <= 1)%Q -> panOffset s = origin) /\
  ((1 < zoomLevel s)%Q -> forall v, viewer = Some v -> panWithin v s).


(** The pan gesture is recorded consistently: the flag is set exactly when a
    start position is held, and never outside zoom mode. *)
Definition gestureConsistent (s : State) : Prop :=
  (isPanning s = true <-> is_Some (panStartRef s)) /\
  (viewerMode s <> zoom -> isPanning s = false).

End Lightbox.

(** ** [hooks/useImageViewer.ts]: the viewer hook *)
Module ImageViewer.
Import Viewer.

Record State := {
  viewerMode : ViewerMode;
  zoomLevel : Q;
  panOffset : Point;
  isPanning : bool;
  pointerStartRef : Point;
  panStartRef : Point
}.

Definition initialState : State :=
  {| viewerMode := frame; zoomLevel := 1; panOffset := origin; isPanning := false;
     pointerStartRef := origin; panStartRef := origin |}.

Definition resetZoomState (s : State) : State :=
  {| viewerMode := frame; zoomLevel := 1; panOffset := origin; isPanning := false;
     pointerStartRef := origin; panStartRef := origin |}.

Definition cycleViewerMode (s : State) : State :=
  {| viewerMode := nextMode (viewerMode s); zoomLevel := 1; panOffset := origin;
     isPanning := isPanning s; pointerStartRef := pointerStartRef s;
     panStartRef := panStartRef s |}.

Definition clampPanOffset (offset : Point) : Point :=
  let maxPan := 200%Q in
  {| x := Qmax (- maxPan) (Qmin maxPan (x offset));
     y := Qmax (- maxPan) (Qmin maxPan (y offset)) |}.

Definition handleWheel (deltaY : Q) (s : State) : State :=
  if decide (viewerMode s <> zoom) then s
  else
    let delta := if Qlt_bool 0%Q deltaY then (- ZOOM_STEP)%Q else ZOOM_STEP in
    {| viewerMode := viewerMode s; zoomLevel := clampZoom (zoomLevel s + delta)%Q;
       panOffset := panOffset s; isPanning := isPanning s;
       pointerStartRef := pointerStartRef s; panStartRef := panStartRef s |}.

Definition handlePointerDown (clientX clientY : Q) (s : State) : State :=
  if decide (viewerMode s <> zoom) then s
  else
    {| viewerMode := viewerMode s; zoomLevel := zoomLevel s; panOffset := panOffset s;
       isPanning := true;
       pointerStartRef := {| x := clientX; y := clientY |};
       panStartRef := panOffset s |}.

Definition handlePointerMove (clientX clientY : Q) (s : State) : State :=
  if negb (isPanning s) || bool_decide (viewerMode s <> zoom) then s
  else
    let dx := (clientX - x (pointerStartRef s))%Q in
    let dy := (clientY - y (pointerStartRef s))%Q in
    let newOffset := {| x := (x (panStartRef s) + dx)%Q; y := (y (panStartRef s) + dy)%Q |} in
    {| viewerMode := viewerMode s; zoomLevel := zoomLevel s;
       panOffset := clampPanOffset newOffset; isPanning := isPanning s;
       pointerStartRef := pointerStartRef s; panStartRef := panStartRef s |}.

Definition handlePointerUp (s : State) : State :=
  {| viewerMode := viewerMode s; zoomLevel := zoomLevel s; panOffset := panOffset s;
     isPanning := false;
     pointerStartRef := pointerStartRef s; panStartRef := panStartRef s |}.

Definition handleDoubleClick (s : State) : State :=
  if decide (viewerMode s = zoom) then resetZoomState s
  else
    {| viewerMode := zoom; zoomLevel := 3 # 2; panOffset := panOffset s;
       isPanning := isPanning s;
       pointerStartRef := pointerStartRef s; panStartRef := panStartRef s |}.

(** One event; the hook takes no pointer id, and its toggle is the
    double click. *)
Definition step (s : State) (ev : Event) : State :=
  match ev with
  | Wheel deltaY => handleWheel deltaY s
  | PointerDown _ cx cy => handlePointerDown cx cy s
  | PointerMove _ cx cy => handlePointerMove cx cy s
  | PointerUp _ => handlePointerUp s
  | Cycle => cycleViewerMode s
  | ToggleZoom => handleDoubleClick s
  end.

Definition run (evs : list Event) : State := fold_left step evs initialState.

(** Both axes within the fixed bound of the hook. *)
Definition panWithin200 (s : State) : Prop :=
  (- (200) <= x (panOffset s) <= 200)%Q /\ (- (200) <= y (panOffset s) <= 200)%Q.

(** What every reachable state of the hook satisfies. *)
Definition invariant (s : State) : Prop :=
  (viewerMode s <> zoom -> panOffset s = origin) /\ panWithin200 s.

End ImageViewer.

(** ** [hooks/useTimeline.ts]: the month groups of the navigator *)
Module MonthNavigator.

Section WithDates.
Context `{Timeline.DateApi}.
(** [a.localeCompare(b)], as the host's collation gives it. *)
Variable localeCompare : string -> string -> Z.
(** [toLocaleDateString('en-US', { year: 'numeric', month: 'long' })]. *)
Variable longMonthLabel : Timeline.JsDate -> string.

Record MonthGroup := { key : string; label : string; count : nat }.

(** The template literal that names the month of a day-group. *)
Definition monthKeyOf (group : Timeline.TimelineGroup) : string :=
  Timeline.stringOfZ (Timeline.getFullYear (Timeline.date group)) +:+ "-"
    +:+ Timeline.padStart2 (Timeline.stringOfZ (Timeline.getMonth (Timeline.date group) + 1)).

(** [groups.set(monthKey, (groups.get(monthKey) || 0) + count)] on the [Map],
    kept in insertion order. *)
Fixpoint addCount (monthKey : string) (count : nat) (groups : list (string * nat))
    : list (string * nat) :=
  match groups with
  | [] => [(monthKey, 0 + count)]
  | (k, n) :: rest =>
      if String.eqb k monthKey then (k, n + count) :: rest
      else (k, n) :: addCount monthKey count rest
  end.

Definition countByMonth (timelineGroups : list Timeline.TimelineGroup) : list (string * nat) :=
  fold_left (fun groups group => addCount (monthKeyOf group) (Timeline.count group) groups)
    timelineGroups [].

(** The value of [monthGroups]. *)
Definition monthGroups (timelineGroups : list Timeline.TimelineGroup) : list MonthGroup :=
  Timeline.sortBy (fun a b => localeCompare (key b) (key a))
    (map (fun entry : string * nat =>
            {| key := entry.1;
               label := longMonthLabel (Timeline.newDate (entry.1 +:+ "-01"));
               count := entry.2 |})
       (countByMonth timelineGroups)).

End WithDates.

End MonthNavigator.

(** ** [types/media.ts]: persons *)
Module People.

Record PersonItem := {
  id : string;
  label : string;
  face_count : nat;
  cover_face_id : option string;
  cover_image_url : option string
}.

End People.

(** ** [App.tsx]: derived values and handlers of the application shell *)
Module App.
Import Media.

Definition ALL_FOLDERS : string := "".

(** [a || b] on strings: the empty string is falsy. *)
Definition orString (a b : string) : string := if String.eqb a "" then b else a.

(** [getFolderFromPath(image.relative_path) || '']. *)
Definition folderOf (image : ImageMetadata) : string :=
  orString (Api.getFolderFromPath (Some (relative_path image))) "".

(** The value of [filteredImages]. *)
Definition filteredImages (items : list ImageMetadata) (activeView : string)
    (favorites : gset string) (activeFolder : string) : list ImageMetadata :=
  let items1 :=
    if String.eqb activeView "favorites" then filter (fun image => id image ∈ favorites) items
    else items in
  if negb (String.eqb activeFolder ALL_FOLDERS) then
    filter (fun image => folderOf image = activeFolder) items1
  else items1.

(** *** [folderSummary] *)

Record FolderEntry := { key : string; label : string; count : nat }.

(** One turn of the [forEach]: [current.count += 1] when the [Map] has the
    key, [map.set(key, { key, label, count: 1 })] otherwise. *)
Fixpoint countFolder (folderKey folderLabel : string) (entries : list FolderEntry)
    : list FolderEntry :=
  match entries with
  | [] => [{| key := folderKey; label := folderLabel; count := 1 |}]
  | current :: rest =>
      if String.eqb (key current) folderKey then
        {| key := key current; label := label current; count := count current + 1 |} :: rest
      else current :: countFolder folderKey folderLabel rest
  end.

(** The values of the [Map], in insertion order. *)
Definition folderEntries (items : list ImageMetadata) : list FolderEntry :=
  fold_left
    (fun entries image =>
       let folderPath := Api.getFolderFromPath (Some (relative_path image)) in
       countFolder (orString folderPath "") (orString folderPath "Root") entries)
    items [].

(** The value of [folderSummary]; [localeCompare] is the host's collation. *)
Definition folderSummary (localeCompare : string -> string -> Z)
    (items : list ImageMetadata) : list FolderEntry :=
  Timeline.sortBy (fun a b => localeCompare (label a) (label b)) (folderEntries items).

(** *** The preview and its neighbours *)

(** [l.findIndex(test)]. *)
Fixpoint findIndex {A : Type} (test : A -> bool) (l : list A) : Z :=
  match l with
  | [] => -1
  | a :: rest =>
      if test a then 0
      else let i := findIndex test rest in
           if (i =? -1)%Z then -1 else (i + 1)%Z
  end.

(** The value of [previewIndex]. *)
Definition previewIndex (filtered : list ImageMetadata)
    (previewImage : option ImageMetadata) : Z :=
  match previewImage with
  | None => -1
  | Some preview => findIndex (fun image => String.eqb (id image) (id preview)) filtered
  end.

(** [showPreviousImage] and [showNextImage]: the preview they leave. *)
Definition showPreviousImage (filtered : list ImageMetadata)
    (previewImage : option ImageMetadata) : option ImageMetadata :=
  let index := previewIndex filtered previewImage in
  if (0 <? index)%Z then filtered !! Z.to_nat (index - 1) else previewImage.

Definition showNextImage (filtered : list ImageMetadata)
    (previewImage : option ImageMetadata) : option ImageMetadata :=
  let index := previewIndex filtered previewImage in
  if negb (index =? -1)%Z && (index <? Z.of_nat (List.length filtered) - 1)%Z then
    filtered !! Z.to_nat (index + 1)
  else previewImage.

Definition previewHasPrev (filtered : list ImageMetadata)
    (previewImage : option ImageMetadata) : bool :=
  (0 <? previewIndex filtered previewImage)%Z.

Definition previewHasNext (filtered : list ImageMetadata)
    (previewImage : option ImageMetadata) : bool :=
  (0 <=? previewIndex filtered previewImage)%Z
  && (previewIndex filtered previewImage <? Z.of_nat (List.length filtered) - 1)%Z.

(** *** The selected person *)

(** The effect that clears a selection that has lost its person: the value
    of [selectedPersonId] it leaves. *)
Definition clearStaleSelection (activeView : string) (persons : list People.PersonItem)
    (selectedPersonId : option string) : option string :=
  if negb (String.eqb activeView "faces") then None
  else if List.length persons =? 0 then None
  else match selectedPersonId with
       | Some selected =>
           if negb (String.eqb selected "")
              && negb (existsb (fun p => String.eqb (People.id p) selected) persons)
           then None
           else selectedPersonId
       | None => selectedPersonId
       end.

(** The value of [activePerson]. *)
Definition activePerson (persons : list People.PersonItem)
    (selectedPersonId : option string) : option People.PersonItem :=
  match selectedPersonId with
  | Some selected => find (fun p => String.eqb (People.id p) selected) persons
  | None => None
  end.

End App.

(** ** [components/ImageGrid.tsx]: what the grid renders *)
Module ImageGrid.
Import Media.

Inductive Rendered :=
| ErrorState (message : string)
| SkeletonGrid (cells : nat)
| EmptyState
| Grid (images : list ImageMetadata).

(** The branches of the component, in their order; [if (error)] takes a
    message that is given and not empty. *)
Definition render (images : list ImageMetadata) (loading : bool) (error : option string)
    : Rendered :=
  match error with
  | Some (String c message) => ErrorState (String c message)
  | _ =>
      if loading && (List.length images =? 0) then SkeletonGrid 24
      else if negb loading && (List.length images =? 0) then EmptyState
      else Grid images
  end.

End ImageGrid.

(** ** Sample data for the application shell *)
Module ShellSamples.
Import Media.

(** The sample image [k], stored at [path]. *)
Definition imageIn (k : nat) (path : string) : ImageMetadata :=
  {| id := id (Samples.sampleImage k); name := name (Samples.sampleImage k);
     relative_path := path; url := "/media/" +:+ path;
     size_bytes := size_bytes (Samples.sampleImage k);
     modified_at := modified_at (Samples.sampleImage k) |}.

(** Two folders and one image at the root. *)
Definition shelf : list ImageMetadata :=
  [imageIn 0 "trips/rome/a.jpg"; imageIn 1 "b.jpg";
   imageIn 2 "trips/rome/c.jpg"; imageIn 3 "pets/d.jpg"].

Definition person (id label : string) : People.PersonItem :=
  {| People.id := id; People.label := label; People.face_count := 1;
     People.cover_face_id := None; People.cover_image_url := None |}.

Definition family : list People.PersonItem :=
  [person "p1" "Ada"; person "p2" "Grace"].

(** A collation: the order of the code units. *)
Definition codeUnitCompare (a b : string) : Z :=
  match String.compare a b with Lt => -1 | Eq => 0 | Gt => 1 end.

End ShellSamples.

(* ===================================================================== *)
(** * Part II: properties                                                 *)
(* ===================================================================== *)

(** ** View router *)
Section ViewRoutingProps.
Import ViewRouting.

Lemma eqb_string_spec (a b : string) : String.eqb a b = true <-> a = b.
Proof. apply String.eqb_eq. Qed.

(** C8. [showGrid] is true exactly for the keys all, favorites and
    timeline; [showFaces] is true exactly for faces; a key outside the
    known set gets the title and subtitle of the [default] branches. The
    router is a total function, so no key makes it fail. *)
Theorem useViewRouting_flags_and_default (activeView : string) :
  (showGrid (useViewRouting activeView) = true <->
     activeView = "all" \/ activeView = "favorites" \/ activeView = "timeline") /\
  (showFaces (useViewRouting activeView) = true <-> activeView = "faces") /\
  (activeView ∉ knownViews ->
     viewTitle (useViewRouting activeView) = "All Photos" /\
     viewSubtitle (useViewRouting activeView) =
       "Feature coming soon. Keep browsing in All Photos while we finish this workspace.").
Proof.
  split; [| split].
  - cbn [useViewRouting showGrid].
    rewrite !orb_true_iff, !eqb_string_spec. tauto.
  - cbn [useViewRouting showFaces]. apply eqb_string_spec.
  - intros Hnot.
    assert (Hne : forall k, k ∈ knownViews -> String.eqb activeView k = false).
    { intros k Hk. apply String.eqb_neq. intros ->. contradiction. }
    cbn [useViewRouting viewTitle viewSubtitle].
    unfold viewTitleOf, viewSubtitleOf, knownViews in *.
    rewrite !Hne by (repeat constructor). split; reflexivity.
Qed.

Lemma useViewRouting_flags_and_default_witness :
  ("albums" ∉ knownViews) /\
  viewTitle (useViewRouting "albums") = "All Photos" /\
  viewSubtitle (useViewRouting "albums") =
    "Feature coming soon. Keep browsing in All Photos while we finish this workspace.".
Proof.
  assert (H : "albums" ∉ knownViews) by (apply (bool_decide_unpack _); vm_compute; exact I).
  split; [exact H |].
  exact (proj2 (proj2 (useViewRouting_flags_and_default "albums")) H).
Defined.

Example resolve_faces :
  showFaces (useViewRouting "faces") = true /\ showGrid (useViewRouting "faces") = false.
Proof. split; reflexivity. Qed.

End ViewRoutingProps.

(** ** Favorites store *)
Section FavoritesProps.
Import Favorites.

Lemma toggleFavorite_member (S : gset string) (x : string) :
  x ∈ S -> toggleFavorite S x = S ∖ {[ x ]}.
Proof. intros H. unfold toggleFavorite. case_decide; [reflexivity | contradiction]. Qed.

Lemma toggleFavorite_absent (S : gset string) (x : string) :
  x ∉ S -> toggleFavorite S x = S ∪ {[ x ]}.
Proof. intros H. unfold toggleFavorite. case_decide; [contradiction | reflexivity]. Qed.

(** C6. Toggling twice gives the set back; one toggle removes [x] when it
    is a member and adds it otherwise, and leaves every other id alone. *)
Theorem toggleFavorite_involution (S : gset string) (x : string) :
  toggleFavorite (toggleFavorite S x) x = S /\
  (x ∈ toggleFavorite S x <-> x ∉ S) /\
  (forall y, y <> x -> (y ∈ toggleFavorite S x <-> y ∈ S)).
Proof.
  destruct (decide (x ∈ S)) as [Hin | Hout].
  - rewrite (toggleFavorite_member S x Hin).
    split; [| split].
    + rewrite toggleFavorite_absent by set_solver.
      apply set_eq. intros y. destruct (decide (y = x)); set_solver.
    + set_solver.
    + set_solver.
  - rewrite (toggleFavorite_absent S x Hout).
    split; [| split].
    + rewrite toggleFavorite_member by set_solver. set_solver.
    + set_solver.
    + set_solver.
Qed.

Example toggle_img_1 :
  toggleFavorite ∅ "img_1" = {[ "img_1" ]} /\
  toggleFavorite (toggleFavorite ∅ "img_1") "img_1" = ∅.
Proof. split; apply (bool_decide_unpack _); vm_compute; exact I. Qed.

End FavoritesProps.

(** ** Media URL resolver *)
Section ResolveMediaUrlProps.
Import Api.

(** C9. A path that starts with http:// or https:// comes back unchanged,
    whatever the thumbnail argument and the origin. *)
Theorem resolveMediaUrl_absolute (origin path : string) (thumbnail : Thumbnail) :
  startsWith path "http://" = true \/ startsWith path "https://" = true ->
  resolveMediaUrl origin path thumbnail = path.
Proof.
  intros H. unfold resolveMediaUrl.
  destruct H as [-> | ->]; [reflexivity | rewrite orb_true_r; reflexivity].
Qed.

Lemma resolveMediaUrl_absolute_witness :
  resolveMediaUrl "http://localhost:8000" "https://cdn.example/media/a b.jpg" (ThumbSize large)
  = "https://cdn.example/media/a b.jpg".
Proof. apply resolveMediaUrl_absolute. right. reflexivity. Defined.

(** The other branches do rewrite the path. *)
Example resolveMediaUrl_relative_thumbnail :
  resolveMediaUrl "http://localhost:8000" "/media/trips/a b.jpg" (ThumbFlag true)
  = "http://localhost:8000/thumbnails/medium/trips/a%20b.jpg".
Proof. reflexivity. Qed.

Example resolveMediaUrl_relative_full :
  resolveMediaUrl "http://localhost:8000" "trips/caf#.jpg" (ThumbFlag false)
  = "http://localhost:8000/media//trips/caf%23.jpg".
Proof. reflexivity. Qed.

End ResolveMediaUrlProps.

(** ** [fetchAllImages]: termination and exit point *)
Section FetchAllImagesProps.
Import Media Api.
Variables (srv : Server) (bs : nat).

Lemma pagesFrom_cons p k :
  pagesFrom srv bs p (S k) = pageItems srv bs p ++ pagesFrom srv bs (S p) k.
Proof. reflexivity. Qed.

Lemma pageItems_resolved p r : srv p bs = Resolved r -> pageItems srv bs p = Media.items r.
Proof. unfold pageItems. intros ->. reflexivity. Qed.

Lemma pageTotal_resolved p r : srv p bs = Resolved r -> pageTotal srv bs p = Media.total r.
Proof. unfold pageTotal. intros ->. reflexivity. Qed.

(** The three ways one turn of the loop can go. *)
Lemma fetchAllLoop_exit fuel page total items :
  ltCount (List.length items) total = false ->
  fetchAllLoop srv bs fuel page total items =
    Some (Returned {| allItems := items; allTotal := finiteOr total (List.length items) |}).
Proof. intros H. destruct fuel; cbn [fetchAllLoop]; rewrite H; reflexivity. Qed.

Lemma fetchAllLoop_empty fuel page total items r :
  ltCount (List.length items) total = true ->
  srv page bs = Resolved r -> Media.items r = [] ->
  fetchAllLoop srv bs (S fuel) page total items =
    Some (Returned {| allItems := items ++ Media.items r;
                      allTotal := finiteOr (Media.total r) (List.length (items ++ Media.items r)) |}).
Proof. intros H Hr He. cbn [fetchAllLoop]. rewrite H, Hr, He. reflexivity. Qed.

Lemma fetchAllLoop_next fuel page total items r :
  ltCount (List.length items) total = true ->
  srv page bs = Resolved r -> Media.items r <> [] ->
  fetchAllLoop srv bs (S fuel) page total items =
    fetchAllLoop srv bs fuel (page + 1) (Media.total r) (items ++ Media.items r).
Proof.
  intros H Hr Hne. cbn [fetchAllLoop]. rewrite H, Hr. cbn [negb].
  destruct (Media.items r) as [| x xs] eqn:E; [congruence | reflexivity].
Qed.

(** After the answer to [page], whether it was empty or filled the count,
    the loop leaves with the same record. *)
Lemma fetchAllLoop_last fuel page total items r :
  ltCount (List.length items) total = true ->
  srv page bs = Resolved r ->
  Media.items r = [] \/ ltCount (List.length (items ++ Media.items r)) (Media.total r) = false ->
  fetchAllLoop srv bs (S fuel) page total items =
    Some (Returned {| allItems := items ++ Media.items r;
                      allTotal := finiteOr (Media.total r) (List.length (items ++ Media.items r)) |}).
Proof.
  intros H Hr Hstop.
  destruct (decide (Media.items r = [])) as [He | Hne].
  - apply fetchAllLoop_empty; assumption.
  - destruct Hstop as [He | Hfull]; [contradiction |].
    rewrite (fetchAllLoop_next _ _ _ _ r) by assumption.
    apply fetchAllLoop_exit. exact Hfull.
Qed.

(** Termination, for a loop entered at any page with any accumulator. *)
Lemma fetchAllLoop_terminates d : forall page total items,
  (exists r, srv (page + d) bs = Resolved r /\
     (Media.items r = [] \/
      ltCount (List.length (items ++ pagesFrom srv bs page (S d))) (Media.total r) = false)) ->
  exists out, forall fuel, S d <= fuel ->
    fetchAllLoop srv bs fuel page total items = Some out.
Proof.
  induction d as [| d IH]; intros page total items (r & Hr & Hstop).
  - rewrite Nat.add_0_r in Hr.
    destruct (ltCount (List.length items) total) eqn:Hlt.
    + eexists. intros [| fuel] Hfuel; [lia |].
      apply (fetchAllLoop_last fuel page total items r Hlt Hr).
      rewrite pagesFrom_cons, (pageItems_resolved _ _ Hr) in Hstop.
      cbn in Hstop. rewrite app_nil_r in Hstop. exact Hstop.
    + eexists. intros fuel _. apply fetchAllLoop_exit. exact Hlt.
  - destruct (ltCount (List.length items) total) eqn:Hlt.
    2:{ eexists. intros fuel _. apply fetchAllLoop_exit. exact Hlt. }
    destruct (srv page bs) as [r0 | e] eqn:Hr0.
    2:{ exists (Threw e). intros [| fuel] Hfuel; [lia |].
        cbn [fetchAllLoop]. rewrite Hlt, Hr0. reflexivity. }
    destruct (decide (Media.items r0 = [])) as [He | Hne].
    { eexists. intros [| fuel] Hfuel; [lia |].
      apply (fetchAllLoop_empty fuel page total items r0 Hlt Hr0 He). }
    destruct (IH (page + 1) (Media.total r0) (items ++ Media.items r0)) as [out Hout].
    { exists r. split.
      - rewrite <- Hr. f_equal. lia.
      - rewrite pagesFrom_cons, (pageItems_resolved _ _ Hr0), app_assoc in Hstop.
        replace (page + 1) with (S page) by lia. exact Hstop. }
    exists out. intros [| fuel] Hfuel; [lia |].
    rewrite (fetchAllLoop_next _ _ _ _ r0) by assumption.
    apply Hout. lia.
Qed.

(** The result, when the first stopping page is the [d]-th after [page]. *)
Lemma fetchAllLoop_result d : forall page total items,
  ltCount (List.length items) total = true ->
  (forall k, k < d -> exists r, srv (page + k) bs = Resolved r /\ Media.items r <> [] /\
     ltCount (List.length (items ++ pagesFrom srv bs page (S k))) (Media.total r) = true) ->
  (exists r, srv (page + d) bs = Resolved r /\
     (Media.items r = [] \/
      ltCount (List.length (items ++ pagesFrom srv bs page (S d))) (Media.total r) = false)) ->
  forall fuel, S d <= fuel ->
    fetchAllLoop srv bs fuel page total items =
      Some (Returned
        {| allItems := items ++ pagesFrom srv bs page (S d);
           allTotal := finiteOr (pageTotal srv bs (page + d))
                         (List.length (items ++ pagesFrom srv bs page (S d))) |}).
Proof.
  induction d as [| d IH]; intros page total items Hlt Hcont (r & Hr & Hstop) fuel Hfuel.
  - rewrite Nat.add_0_r in *. destruct fuel as [| fuel]; [lia |].
    rewrite pagesFrom_cons, (pageItems_resolved _ _ Hr) in *.
    cbn [pagesFrom seq map concat] in *. rewrite app_nil_r in *.
    rewrite (pageTotal_resolved _ _ Hr).
    apply fetchAllLoop_last; assumption.
  - destruct fuel as [| fuel]; [lia |].
    destruct (Hcont 0) as (r0 & Hr0 & Hne & Hlt0); [lia |].
    rewrite Nat.add_0_r in Hr0.
    rewrite pagesFrom_cons, (pageItems_resolved _ _ Hr0) in Hlt0.
    cbn [pagesFrom seq map concat] in Hlt0. rewrite app_nil_r in Hlt0.
    rewrite (fetchAllLoop_next _ _ _ _ r0) by assumption.
    rewrite (pagesFrom_cons page (S d)), (pageItems_resolved _ _ Hr0), app_assoc.
    replace (page + S d) with (page + 1 + d) by lia.
    replace (S page) with (page + 1) by lia.
    apply IH; [exact Hlt0 | | | lia].
    + intros k Hk. destruct (Hcont (S k)) as (rk & Hrk & Hnek & Hltk); [lia |].
      exists rk. split; [| split; [exact Hnek |]].
      * rewrite <- Hrk. f_equal. lia.
      * rewrite pagesFrom_cons, (pageItems_resolved _ _ Hr0), app_assoc in Hltk.
        replace (page + 1) with (S page) by lia. exact Hltk.
    + exists r. split.
      * rewrite <- Hr. f_equal. lia.
      * rewrite pagesFrom_cons, (pageItems_resolved _ _ Hr0), app_assoc in Hstop.
        replace (page + 1) with (S page) by lia. exact Hstop.
Qed.

(** While every answer reports a non-finite total, the returned total is the
    number of items returned. *)
Lemma fetchAllLoop_never_finite :
  (forall p r, srv p bs = Resolved r -> Media.total r = Infinity) ->
  forall fuel page items res,
    fetchAllLoop srv bs fuel page Infinity items = Some (Returned res) ->
    allTotal res = List.length (allItems res).
Proof.
  intros Hinf. induction fuel as [| fuel IH]; intros page items res.
  - cbn. discriminate.
  - cbn [fetchAllLoop ltCount negb].
    destruct (srv page bs) as [r | e] eqn:Hr; [| discriminate].
    rewrite (Hinf _ _ Hr).
    destruct (List.length (Media.items r) =? 0).
    + intros [= <-]. reflexivity.
    + apply IH.
Qed.

(** C10. If some page [n] is answered with an empty list, or brings the
    accumulated count up to the total it reports, then [fetchAllImages]
    ends (with [n] requests at most); when [n] is the first such page the
    loop leaves right after it, returning the items of pages [1..n] and the
    last reported total; and a server that never reports a finite total
    gets the number of items back as the total. *)
Theorem fetchAllImages_terminates (n : nat) :
  1 <= n -> stopsAt srv bs n ->
  (exists out, forall fuel, n <= fuel -> fetchAllImages srv bs fuel = Some out) /\
  ((forall k, 1 <= k < n -> continuesAt srv bs k) ->
     forall fuel, n <= fuel ->
       fetchAllImages srv bs fuel =
         Some (Returned
           {| allItems := pagesUpTo srv bs n;
              allTotal := finiteOr (pageTotal srv bs n) (List.length (pagesUpTo srv bs n)) |})) /\
  ((forall p r, srv p bs = Resolved r -> Media.total r = Infinity) ->
     forall fuel res, fetchAllImages srv bs fuel = Some (Returned res) ->
       allTotal res = List.length (allItems res)).
Proof.
  intros Hn (r & Hr & Hstop). destruct n as [| d]; [lia |].
  unfold fetchAllImages, pagesUpTo in *.
  split; [| split].
  - apply fetchAllLoop_terminates. exists r. split; [exact Hr | exact Hstop].
  - intros Hcont fuel Hfuel.
    rewrite (fetchAllLoop_result d 1 Infinity [] eq_refl); [reflexivity | | | exact Hfuel].
    + intros k Hk. destruct (Hcont (1 + k)) as (rk & Hrk & Hnek & Hltk); [lia |].
      exists rk. repeat split; assumption.
    + exists r. split; [exact Hr | exact Hstop].
  - intros Hinf fuel res. apply fetchAllLoop_never_finite. exact Hinf.
Qed.

End FetchAllImagesProps.

Section FetchAllImagesExamples.
Import Media Api.

(** A library of five images fetched in batches of two: pages 1 and 2 are
    full, page 3 brings the count up to the total, and the loop leaves. *)
Lemma fetchAllImages_terminates_witness :
  fetchAllImages (Samples.pagedServer (Samples.library 5)) 2 3
  = Some (Returned {| allItems := Samples.library 5; allTotal := 5 |}).
Proof.
  assert (Hn : 1 <= 3) by lia.
  assert (Hstop : stopsAt (Samples.pagedServer (Samples.library 5)) 2 3).
  { eexists. split; [reflexivity |]. right. reflexivity. }
  assert (Hcont : forall k, 1 <= k < 3 ->
                    continuesAt (Samples.pagedServer (Samples.library 5)) 2 k).
  { intros k Hk. assert (Hcases : k = 1 \/ k = 2) by lia.
    destruct Hcases as [-> | ->]; eexists; (split; [reflexivity |]);
      (split; [discriminate | reflexivity]). }
  exact (proj1 (proj2 (fetchAllImages_terminates
                         (Samples.pagedServer (Samples.library 5)) 2 3 Hn Hstop))
           Hcont 3 (le_n 3)).
Defined.

(** With a total that is never finite the loop runs to the first empty page
    and reports the number of items. *)
Example fetchAllImages_infinite_total :
  fetchAllImages
    (fun page page_size =>
       Resolved {| Media.items := if page <=? 2 then [Samples.sampleImage page] else [];
                   Media.page := page; Media.page_size := page_size;
                   Media.total := Infinity |}) 120 3
  = Some (Returned {| allItems := [Samples.sampleImage 1; Samples.sampleImage 2];
                      allTotal := 2 |}).
Proof. reflexivity. Qed.

(** Without an empty page and without a finite total, no amount of fuel is
    enough: the loop does not end. *)
Example fetchAllLoop_runs_on (fuel : nat) : forall page items,
  fetchAllLoop Samples.endlessServer 120 fuel page Infinity items = None.
Proof.
  induction fuel as [| fuel IH]; intros page items; [reflexivity |].
  cbn [fetchAllLoop ltCount negb]. apply IH.
Qed.

End FetchAllImagesExamples.

(** ** Gallery loader *)
Section GalleryProps.
Import Media Gallery.

Lemma updates_app (a b : list Step) : updates (a ++ b) = updates a ++ updates b.
Proof. apply omap_app. Qed.

Lemma requests_app (a b : list Step) : requests (a ++ b) = requests a ++ requests b.
Proof. apply omap_app. Qed.

Lemma loadRemainingLoop_updates srv cancelled fuel total0 :
  forall currentPage acc st,
    2 <= currentPage -> total st = total0 ->
    Forall (backgroundUpdate srv total0)
      (updates (log (loadRemainingLoop srv cancelled fuel total0 currentPage acc st))).
Proof.
  induction fuel as [| fuel IH]; intros currentPage acc st Hp Htot; cbn [loadRemainingLoop].
  - destruct (_ && _); constructor.
  - destruct (ltCount (List.length acc) total0) eqn:Hlt; cbn [andb]; [| constructor].
    destruct (negb (cancelled (currentPage - 1))); [| constructor].
    destruct (srv currentPage 60) as [r | e] eqn:Hr; [| constructor].
    destruct (negb (cancelled currentPage)); cbn [andb]; [| constructor].
    destruct (0 <? List.length (Media.items r)) eqn:Hlen; [| constructor].
    cbn [andThen log updates omap app]. constructor.
    + split; [exact Htot |]. exists acc, currentPage, r.
      repeat split; try assumption.
      intros He. rewrite He in Hlen. discriminate.
    + apply IH; [lia | exact Htot].
Qed.

(** With a finite total, a background update exceeds it by less than the
    size of the page it applied. *)
Lemma backgroundUpdate_bound srv t st' :
  backgroundUpdate srv (Fin t) st' ->
  exists p r, srv p 60 = Resolved r /\
    List.length (items st') < t + List.length (Media.items r).
Proof.
  intros (_ & acc & p & r & _ & Hr & _ & Hitems & Hlt).
  exists p, r. split; [exact Hr |].
  rewrite Hitems, length_app. cbn [ltCount] in Hlt.
  apply Nat.ltb_lt in Hlt. lia.
Qed.

(** The list of every background update is the accumulator the loop started
    from, followed by the pages answered since, in page order. *)
Lemma loadRemainingLoop_items srv cancelled fuel total0 :
  forall currentPage acc st,
    2 <= currentPage ->
    Forall (fun st' => exists k,
              items st' = acc ++ concat (map (servedPage srv) (seq currentPage k)))
      (updates (log (loadRemainingLoop srv cancelled fuel total0 currentPage acc st))).
Proof.
  induction fuel as [| fuel IH]; intros currentPage acc st Hp; cbn [loadRemainingLoop].
  - destruct (_ && _); constructor.
  - destruct (_ && _); [| constructor].
    destruct (srv currentPage 60) as [r | e] eqn:Hr; [| constructor].
    destruct (_ && _); [| constructor].
    assert (Hserved : servedPage srv currentPage = Media.items r).
    { unfold servedPage. destruct currentPage as [| [| q]]; [lia | lia |].
      cbn [Nat.eqb]. rewrite Hr. reflexivity. }
    cbn [andThen log updates omap app]. constructor.
    + exists 1. cbn [seq map concat]. rewrite Hserved, app_nil_r. reflexivity.
    + eapply Forall_impl; [apply IH; lia |].
      intros st' [k Hk]. exists (S k). cbn [seq map concat].
      rewrite Hserved, Hk, <- app_assoc.
      replace (currentPage + 1) with (S currentPage) by lia. reflexivity.
Qed.

(** In a run of [load], the background updates start from the items of the
    render that installed the effect, whatever the first page brought. *)
Lemma load_background_items gallery srv cancelled fuel st firstPage :
  srv 1 30 = Resolved firstPage -> cancelled 1 = false ->
  exists st1 st2 background,
    updates (log (load gallery srv cancelled fuel st)) = st1 :: st2 :: background /\
    items st2 = Media.items firstPage /\
    Forall (fun st' => exists k,
              items st' = items gallery ++ concat (map (servedPage srv) (seq 2 k)))
      background.
Proof.
  intros Hres Hc. unfold load. rewrite Hres, Hc. cbn [negb].
  destruct (gtCount _ _).
  - do 3 eexists. cbn [andThen log]. rewrite updates_app.
    split; [reflexivity |]. split; [reflexivity |].
    apply loadRemainingLoop_items. lia.
  - do 2 eexists. exists []. repeat split. constructor.
Qed.

(** The requests of the background loop: consecutive pages, size 60 each. *)
Lemma loadRemainingLoop_requests srv cancelled fuel total0 :
  forall currentPage acc st, exists k,
    requests (log (loadRemainingLoop srv cancelled fuel total0 currentPage acc st))
    = map (fun p => (p, 60)) (seq currentPage k).
Proof.
  induction fuel as [| fuel IH]; intros currentPage acc st; cbn [loadRemainingLoop].
  - exists 0. destruct (_ && _); reflexivity.
  - destruct (_ && _); [| exists 0; reflexivity].
    destruct (srv currentPage 60) as [r | e]; [| exists 1; reflexivity].
    destruct (_ && _); [| exists 1; reflexivity].
    destruct (IH (currentPage + 1) (acc ++ Media.items r)
                {| items := acc ++ Media.items r; total := total st;
                   loading := loading st; error := error st |}) as [k Hk].
    exists (S k). cbn [andThen log]. rewrite requests_app, Hk.
    replace (currentPage + 1) with (S currentPage) by lia. reflexivity.
Qed.

(** The loader asks for page 1 with size 30, then for pages 2, 3, ... in
    this order with size 60. *)
Lemma load_requests_in_page_order gallery srv cancelled fuel st :
  exists k, requests (log (load gallery srv cancelled fuel st))
            = (1, 30) :: map (fun p => (p, 60)) (seq 2 k).
Proof.
  unfold load.
  destruct (srv 1 30) as [r | e]; destruct (negb (cancelled 1));
    try (exists 0; reflexivity).
  destruct (gtCount _ _); [| exists 0; reflexivity].
  unfold loadRemainingPages.
  destruct (loadRemainingLoop_requests srv cancelled fuel (Media.total r) 2
              (items gallery)
              {| items := Media.items r; total := Media.total r;
                 loading := false; error := None |}) as [k Hk].
  exists k. cbn [andThen log]. rewrite requests_app, Hk. reflexivity.
Qed.

(** C2, as the code has it. When the request for the first page fails and
    the load has not been cancelled, the state gets the failure message as
    its error ("Unknown error" when the thrown value is not an Error) and
    loading = false; items and total stay what they were before the load. *)
Theorem load_first_page_failure gallery srv cancelled fuel st e :
  srv 1 30 = Rejected e -> cancelled 1 = false ->
  final (load gallery srv cancelled fuel st)
    = {| items := items st; total := total st; loading := false;
         error := Some (errorMessage e) |} /\
  completed (load gallery srv cancelled fuel st) = true /\
  requests (log (load gallery srv cancelled fuel st)) = [(1, 30)].
Proof.
  intros Hrej Hc. unfold load. rewrite Hrej, Hc. cbn. repeat split.
Qed.

Lemma load_first_page_failure_witness :
  final (load initialGallery (Samples.failingServer "Request failed with status 500")
           Samples.neverCancelled 5
           {| items := Samples.library 2; total := Fin 2; loading := false; error := None |})
  = {| items := Samples.library 2; total := Fin 2; loading := false;
       error := Some "Request failed with status 500" |}.
Proof.
  exact (proj1 (load_first_page_failure initialGallery
                  (Samples.failingServer "Request failed with status 500")
                  Samples.neverCancelled 5
                  {| items := Samples.library 2; total := Fin 2;
                     loading := false; error := None |}
                  (ErrorObject "Request failed with status 500") eq_refl eq_refl)).
Defined.

(** C2, as the specification states it, fails: two images are on display,
    the refresh fails on its first page, and the two images are still in the
    state. *)
Lemma load_first_page_failure_keeps_items :
  let st := {| items := Samples.library 2; total := Fin 2; loading := false; error := None |} in
  let run := load st (Samples.failingServer "Request failed with status 500")
               Samples.neverCancelled 5 st in
  error (final run) = Some "Request failed with status 500" /\
  loading (final run) = false /\
  items (final run) <> [].
Proof. cbv zeta. split; [reflexivity | split; [reflexivity |]]. vm_compute. discriminate. Qed.

(** C3, as the code has it. Once the first page is answered (and the load
    not cancelled), the updates of a run are: loading, then the first page,
    which stores the items and the total of the first answer as they are, so
    that items.length <= total holds there exactly when the answer satisfies
    it; then the background updates, each of which keeps that total and
    appends one non-empty page to a list that was shorter than the total. *)
Theorem load_total_bound gallery srv cancelled fuel st firstPage :
  srv 1 30 = Resolved firstPage -> cancelled 1 = false ->
  exists st2 background,
    updates (log (load gallery srv cancelled fuel st))
      = {| items := items st; total := total st; loading := true; error := None |}
        :: st2 :: background /\
    items st2 = Media.items firstPage /\
    total st2 = Media.total firstPage /\
    (withinTotal st2 <->
       leCount (List.length (Media.items firstPage)) (Media.total firstPage)) /\
    Forall (backgroundUpdate srv (Media.total firstPage)) background.
Proof.
  intros Hres Hc. unfold load. rewrite Hres, Hc. cbn [negb].
  eexists {| items := Media.items firstPage; total := Media.total firstPage;
             loading := false; error := None |}.
  destruct (gtCount _ _).
  - eexists. cbn [andThen log]. rewrite updates_app.
    split; [reflexivity |]. repeat split; try (intros H; exact H).
    apply loadRemainingLoop_updates; [lia | reflexivity].
  - exists []. repeat split; try (intros H; exact H). constructor.
Qed.

Lemma load_total_bound_witness :
  exists st2 background,
    updates (log (load initialGallery (Samples.pagedServer (Samples.library 100))
                    Samples.neverCancelled 5 initialGallery))
      = {| items := []; total := Fin 0; loading := true; error := None |}
        :: st2 :: background /\
    items st2 = Samples.library 30 /\
    total st2 = Fin 100 /\
    (withinTotal st2 <-> leCount 30 (Fin 100)) /\
    Forall (backgroundUpdate (Samples.pagedServer (Samples.library 100)) (Fin 100)) background.
Proof.
  exact (load_total_bound initialGallery (Samples.pagedServer (Samples.library 100))
           Samples.neverCancelled 5 initialGallery
           {| Media.items := Samples.library 30; page := 1; page_size := 30;
              Media.total := Fin 100 |} eq_refl eq_refl).
Defined.

(** C3, as the specification states it, fails: the first answer carries two
    items and reports a total of one, and the state after the first page
    holds both. *)
Lemma load_first_page_exceeds_total :
  let run := load initialGallery Samples.overfullServer Samples.neverCancelled 5
               initialGallery in
  In (final run) (updates (log run)) /\ ~ withinTotal (final run).
Proof.
  cbv zeta. split.
  - vm_compute. right. left. reflexivity.
  - vm_compute. lia.
Qed.

(** C1 at a library of 100 images, loaded from the initial state. The pages
    are asked for in order (1, 2, 3); the first page puts images 0..29 on
    display; the update for page 2 replaces them by images 60..99, because
    the accumulator starts from the items of the render that installed the
    effect (none) and not from the first page. The list on display is then
    not a prefix of what the server sent, and its length, 40, is not
    min(100, 70). *)
Theorem load_drops_first_page :
  let srv := Samples.pagedServer (Samples.library 100) in
  let run := load initialGallery srv Samples.neverCancelled 5 initialGallery in
  completed run = true /\
  requests (log run) = [(1, 30); (2, 60); (3, 60)] /\
  map items (updates (log run))
    = [[]; map Samples.sampleImage (seq 0 30); map Samples.sampleImage (seq 60 40)] /\
  items (final run) = map Samples.sampleImage (seq 60 40) /\
  servedUpTo srv 3 = map Samples.sampleImage (seq 0 30 ++ seq 60 40) /\
  ~ items (final run) `prefix_of` servedUpTo srv 3 /\
  fetchedCount srv 3 = 70 /\
  List.length (items (final run)) <> minCount (total (final run)) (fetchedCount srv 3).
Proof.
  cbv zeta. repeat split; try (vm_compute; reflexivity).
  - intros [k Hk]. vm_compute in Hk. discriminate Hk.
  - vm_compute. lia.
Qed.

End GalleryProps.

(** ** Viewer state machine *)
Section ViewerProps.
Import Viewer.

Lemma dimension_nonneg (n : nat) : (0 <= inject_Z (Z.of_nat n))%Q.
Proof. change 0%Q with (inject_Z 0). rewrite <- Zle_Qle. lia. Qed.

Lemma maxPan_nonneg (z : Q) (n : nat) :
  (1 < z)%Q -> (0 <= (z - 1) * inject_Z (Z.of_nat n) / 2)%Q.
Proof.
  intros Hz. apply Qle_shift_div_l; [reflexivity |]. rewrite Qmult_0_l.
  apply Qmult_le_0_compat; [lra | apply dimension_nonneg].
Qed.

Lemma clamp_between (m o : Q) : (0 <= m)%Q -> (- m <= Qmax (- m) (Qmin m o) <= m)%Q.
Proof.
  intros Hm. split; [apply Q.le_max_l |].
  apply Q.max_lub; [lra | apply Q.le_min_l].
Qed.

(** *** The lightbox *)

Lemma clampPanOffset_le_one viewer offset z :
  (z <= 1)%Q -> Lightbox.clampPanOffset viewer offset z = origin.
Proof.
  intros Hz. unfold Lightbox.clampPanOffset. destruct viewer as [v |]; [| reflexivity].
  apply Qle_bool_iff in Hz. rewrite Hz. reflexivity.
Qed.

Lemma clampPanOffset_within viewer offset z v :
  (1 < z)%Q -> viewer = Some v ->
  (- ((z - 1) * inject_Z (Z.of_nat (Lightbox.clientWidth v)) / 2)
     <= x (Lightbox.clampPanOffset viewer offset z)
     <= (z - 1) * inject_Z (Z.of_nat (Lightbox.clientWidth v)) / 2)%Q /\
  (- ((z - 1) * inject_Z (Z.of_nat (Lightbox.clientHeight v)) / 2)
     <= y (Lightbox.clampPanOffset viewer offset z)
     <= (z - 1) * inject_Z (Z.of_nat (Lightbox.clientHeight v)) / 2)%Q.
Proof.
  intros Hz ->. unfold Lightbox.clampPanOffset.
  destruct (Qle_bool z 1) eqn:Hle.
  - apply Qle_bool_iff in Hle. lra.
  - cbn [x y]. split; apply clamp_between, maxPan_nonneg, Hz.
Qed.

Lemma origin_within z (n : nat) :
  (1 < z)%Q ->
  (- ((z - 1) * inject_Z (Z.of_nat n) / 2) <= 0 <= (z - 1) * inject_Z (Z.of_nat n) / 2)%Q.
Proof. intros Hz. pose proof (maxPan_nonneg z n Hz). lra. Qed.

(** Splits the invariant of a state given by its fields into its four parts. *)
Ltac invariant_parts :=
  unfold Lightbox.invariant, Lightbox.panWithin; cbn; split; [| split; [| split]].

Lemma invariant_initial viewer : Lightbox.invariant viewer Lightbox.initialState.
Proof. invariant_parts; [done | done | done | intros H; lra]. Qed.

Lemma invariant_handleViewerModeChange viewer mode s :
  Lightbox.invariant viewer s ->
  Lightbox.invariant viewer (Lightbox.handleViewerModeChange mode s).
Proof.
  intros Hinv. unfold Lightbox.handleViewerModeChange.
  destruct (decide (Lightbox.viewerMode s = mode)) as [Heq | Hne]; [exact Hinv |].
  destruct (decide (mode <> zoom)) as [Hnz | Hz].
  - invariant_parts; [done | done | done | intros H; lra].
  - assert (mode = zoom) as ->
      by (destruct (decide (mode = zoom)) as [E | E]; [exact E | exfalso; exact (Hz E)]).
    destruct (decide (Lightbox.viewerMode s <> zoom)) as [Hc | Hc]; [| tauto].
    destruct Hinv as (Hb & _).
    invariant_parts; [exact Hb | done | done |].
    intros H v _. split; apply origin_within, H.
Qed.

Lemma viewerMode_handleViewerModeChange mode s :
  Lightbox.viewerMode (Lightbox.handleViewerModeChange mode s) = mode.
Proof.
  unfold Lightbox.handleViewerModeChange.
  destruct (decide (Lightbox.viewerMode s = mode)) as [Heq | Hne]; [exact Heq |].
  destruct (decide (mode <> zoom)); [reflexivity |].
  destruct (decide (Lightbox.viewerMode s <> zoom)); reflexivity.
Qed.

Lemma not_not_zoom (m : ViewerMode) : ~ m <> zoom -> m = zoom.
Proof. intros H. destruct (decide (m = zoom)) as [E | E]; [exact E | contradiction]. Qed.

Lemma invariant_step viewer s ev :
  Lightbox.invariant viewer s -> Lightbox.invariant viewer (Lightbox.step viewer s ev).
Proof.
  intros Hinv. destruct ev as [deltaY | id cx cy | id cx cy | id | |]; cbn [Lightbox.step].
  - (* wheel *)
    unfold Lightbox.handleViewerWheel.
    set (s1 := if decide (Lightbox.viewerMode s <> zoom)
               then Lightbox.handleViewerModeChange zoom s else s).
    assert (H1 : Lightbox.invariant viewer s1 /\ Lightbox.viewerMode s1 = zoom).
    { subst s1. destruct (decide (Lightbox.viewerMode s <> zoom)) as [Hnz | Hz].
      - split; [apply invariant_handleViewerModeChange, Hinv |].
        apply viewerMode_handleViewerModeChange.
      - split; [exact Hinv | apply not_not_zoom, Hz]. }
    destruct H1 as ((Hb & _) & Hmode).
    invariant_parts; [exact Hb | rewrite Hmode; done | apply clampPanOffset_le_one |].
    intros H v Hv. eapply clampPanOffset_within; eassumption.
  - (* pointer down *)
    unfold Lightbox.handleViewerPointerDown.
    destruct (decide (Lightbox.viewerMode s <> zoom)); [exact Hinv | exact Hinv].
  - (* pointer move *)
    unfold Lightbox.handleViewerPointerMove.
    destruct (decide (Lightbox.viewerMode s <> zoom)) as [Hnz | Hz]; [exact Hinv |].
    destruct (Lightbox.panStartRef s) as [start |]; [| exact Hinv].
    destruct (decide (Lightbox.pointerId start <> id)); [exact Hinv |].
    destruct Hinv as (Hb & _).
    invariant_parts; [exact Hb | intros Hm; contradiction | apply clampPanOffset_le_one |].
    intros H v Hv. eapply clampPanOffset_within; eassumption.
  - (* pointer up *)
    unfold Lightbox.handleViewerPointerUpOrCancel.
    destruct (Lightbox.panStartRef s) as [start |]; [| exact Hinv].
    destruct (decide (Lightbox.pointerId start <> id)); [exact Hinv | exact Hinv].
  - apply invariant_handleViewerModeChange, Hinv.
  - unfold Lightbox.toggleZoomShortcut.
    destruct (decide (Lightbox.viewerMode s = zoom));
      apply invariant_handleViewerModeChange, Hinv.
Qed.

Lemma invariant_fold viewer evs : forall s,
  Lightbox.invariant viewer s -> Lightbox.invariant viewer (fold_left (Lightbox.step viewer) evs s).
Proof.
  induction evs as [| ev evs IH]; intros s Hinv; [exact Hinv |].
  cbn [fold_left]. apply IH, invariant_step, Hinv.
Qed.

Lemma invariant_run viewer evs : Lightbox.invariant viewer (Lightbox.run viewer evs).
Proof. apply invariant_fold, invariant_initial. Qed.

(** *** The hook *)

Lemma hook_invariant_step s ev :
  ImageViewer.invariant s -> ImageViewer.invariant (ImageViewer.step s ev).
Proof.
  intros Hinv. destruct ev as [deltaY | id cx cy | id cx cy | id | |]; cbn [ImageViewer.step].
  - unfold ImageViewer.handleWheel.
    destruct (decide (ImageViewer.viewerMode s <> zoom)); exact Hinv.
  - unfold ImageViewer.handlePointerDown.
    destruct (decide (ImageViewer.viewerMode s <> zoom)); exact Hinv.
  - unfold ImageViewer.handlePointerMove.
    destruct (negb (ImageViewer.isPanning s)); cbn [orb]; [exact Hinv |].
    destruct (bool_decide_reflect (ImageViewer.viewerMode s <> zoom)) as [Hnz | Hz];
      [exact Hinv |].
    split; cbn.
    + intros Hm. contradiction.
    + split; apply clamp_between; lra.
  - exact Hinv.
  - unfold ImageViewer.cycleViewerMode, ImageViewer.invariant, ImageViewer.panWithin200; cbn.
    split; [reflexivity | split; lra].
  - unfold ImageViewer.handleDoubleClick.
    destruct (decide (ImageViewer.viewerMode s = zoom)) as [Hz | Hnz].
    + unfold ImageViewer.invariant, ImageViewer.panWithin200; cbn.
      split; [reflexivity | split; lra].
    + destruct Hinv as [_ Hb]. split; [intros Hm; cbn in Hm; congruence | exact Hb].
Qed.

Lemma hook_invariant_run evs : ImageViewer.invariant (ImageViewer.run evs).
Proof.
  unfold ImageViewer.run.
  assert (H0 : ImageViewer.invariant ImageViewer.initialState).
  { unfold ImageViewer.invariant, ImageViewer.panWithin200; cbn.
    split; [reflexivity | split; lra]. }
  revert H0. generalize ImageViewer.initialState.
  induction evs as [| ev evs IH]; intros s Hs; [exact Hs |].
  cbn [fold_left]. apply IH, hook_invariant_step, Hs.
Qed.

(** C4, as the code has it. In the lightbox, with the viewer element held
    fixed, every state reached by wheel, pointer, cycle and toggle events has
    pan (0,0) whenever zoom <= 1 or the mode is not zoom, and at zoom > 1
    both pan axes lie within +-(zoom-1) * dimension / 2. In the
    useImageViewer hook, every reachable state has pan (0,0) whenever the
    mode is not zoom, and both pan axes within +-200 at any zoom level. *)
Theorem viewer_pan_invariant :
  (forall viewer evs,
     let s := Lightbox.run viewer evs in
     ((Lightbox.zoomLevel s <= 1)%Q \/ Lightbox.viewerMode s <> zoom ->
        Lightbox.panOffset s = origin) /\
     ((1 < Lightbox.zoomLevel s)%Q ->
        forall v, viewer = Some v -> Lightbox.panWithin v s)) /\
  (forall evs,
     let s := ImageViewer.run evs in
     (ImageViewer.viewerMode s <> zoom -> ImageViewer.panOffset s = origin) /\
     ImageViewer.panWithin200 s).
Proof.
  split.
  - intros viewer evs s.
    destruct (invariant_run viewer evs) as (_ & Hmode & Hle & Hgt).
    split; [| exact Hgt].
    intros [H | H]; [apply Hle, H | apply Hmode, H].
  - intros evs. exact (hook_invariant_run evs).
Qed.

Lemma viewer_pan_invariant_witness :
  Lightbox.panWithin {| Lightbox.clientWidth := 800; Lightbox.clientHeight := 600 |}
    (Lightbox.run (Some {| Lightbox.clientWidth := 800; Lightbox.clientHeight := 600 |})
       [ToggleZoom; PointerDown 1 0 0; PointerMove 1 1000 (-50)]).
Proof.
  refine (proj2 (proj1 viewer_pan_invariant
                   (Some {| Lightbox.clientWidth := 800; Lightbox.clientHeight := 600 |})
                   [ToggleZoom; PointerDown 1 0 0; PointerMove 1 1000 (-50)])
            _ _ eq_refl).
  reflexivity.
Defined.

Example lightbox_pan_clamped :
  let s := Lightbox.run (Some {| Lightbox.clientWidth := 800; Lightbox.clientHeight := 600 |})
             [ToggleZoom; PointerDown 1 0 0; PointerMove 1 1000 (-50)] in
  (Lightbox.zoomLevel s == 3 # 2)%Q /\
  (x (Lightbox.panOffset s) == 200)%Q /\ (y (Lightbox.panOffset s) == -50)%Q.
Proof. vm_compute. repeat split. Qed.

(** C4, as the specification states it, fails in the hook: two cycles lead
    to zoom mode at zoom level 1, where a drag moves the image by 50
    pixels. *)
Lemma hook_pans_at_zoom_one :
  let s := ImageViewer.run [Cycle; Cycle; PointerDown 1 0 0; PointerMove 1 50 0] in
  ImageViewer.viewerMode s = zoom /\
  (ImageViewer.zoomLevel s <= 1)%Q /\
  ImageViewer.panOffset s <> origin /\
  ~ (x (ImageViewer.panOffset s) == 0)%Q.
Proof.
  cbv zeta. split; [reflexivity | split; [| split]].
  - vm_compute. discriminate.
  - vm_compute. discriminate.
  - vm_compute. discriminate.
Qed.

(** *** Toggle zoom *)

Lemma baseViewerMode_handleViewerModeChange_zoom s :
  Lightbox.baseViewerMode (Lightbox.handleViewerModeChange zoom s) = Lightbox.baseViewerMode s.
Proof.
  unfold Lightbox.handleViewerModeChange.
  destruct (decide (Lightbox.viewerMode s = zoom)); [reflexivity |].
  destruct (decide (zoom <> zoom)); [congruence |].
  destruct (decide (Lightbox.viewerMode s <> zoom)); reflexivity.
Qed.

(** A mode change that ends in zoom mode leaves [baseViewerMode] alone. *)
Lemma baseViewerMode_kept_in_zoom mode s :
  Lightbox.viewerMode (Lightbox.handleViewerModeChange mode s) = zoom ->
  Lightbox.baseViewerMode (Lightbox.handleViewerModeChange mode s) = Lightbox.baseViewerMode s.
Proof.
  rewrite viewerMode_handleViewerModeChange. intros ->.
  apply baseViewerMode_handleViewerModeChange_zoom.
Qed.

Lemma step_keeps_base_in_zoom viewer s ev :
  Lightbox.viewerMode (Lightbox.step viewer s ev) = zoom ->
  Lightbox.baseViewerMode (Lightbox.step viewer s ev) = Lightbox.baseViewerMode s.
Proof.
  destruct ev as [deltaY | id cx cy | id cx cy | id | |]; cbn [Lightbox.step].
  - intros _. unfold Lightbox.handleViewerWheel. cbn.
    destruct (decide (Lightbox.viewerMode s <> zoom)); [| reflexivity].
    apply baseViewerMode_handleViewerModeChange_zoom.
  - intros _. unfold Lightbox.handleViewerPointerDown.
    destruct (decide (Lightbox.viewerMode s <> zoom)); reflexivity.
  - intros _. unfold Lightbox.handleViewerPointerMove.
    destruct (decide (Lightbox.viewerMode s <> zoom)); [reflexivity |].
    destruct (Lightbox.panStartRef s) as [start |]; [| reflexivity].
    destruct (decide (Lightbox.pointerId start <> id)); reflexivity.
  - intros _. unfold Lightbox.handleViewerPointerUpOrCancel.
    destruct (Lightbox.panStartRef s) as [start |]; [| reflexivity].
    destruct (decide (Lightbox.pointerId start <> id)); reflexivity.
  - apply baseViewerMode_kept_in_zoom.
  - unfold Lightbox.toggleZoomShortcut.
    destruct (decide (Lightbox.viewerMode s = zoom)); apply baseViewerMode_kept_in_zoom.
Qed.

Lemma history_base viewer evs : forall s past,
  Lightbox.invariant viewer s ->
  Lightbox.baseViewerMode s = Lightbox.lastNonZoomMode (s :: past) ->
  Lightbox.baseViewerMode (fold_left (Lightbox.step viewer) evs s)
    = Lightbox.lastNonZoomMode (Lightbox.history viewer s evs past).
Proof.
  induction evs as [| ev evs IH]; intros s past Hinv Hbase; [exact Hbase |].
  cbn [fold_left Lightbox.history].
  apply IH; [apply invariant_step, Hinv |].
  pose proof (invariant_step viewer s ev Hinv) as (_ & Hmode & _).
  cbn [Lightbox.lastNonZoomMode] in *.
  destruct (decide (Lightbox.viewerMode (Lightbox.step viewer s ev) <> zoom)) as [Hnz | Hz].
  - apply Hmode, Hnz.
  - rewrite <- Hbase. apply step_keeps_base_in_zoom, not_not_zoom, Hz.
Qed.

(** C5, as the code has it. In the lightbox, toggle-zoom in zoom mode goes
    to [baseViewerMode], which along any sequence of wheel, pointer, cycle
    and toggle events is the mode of the last state that was not in zoom
    mode (and is never zoom); in any other mode it enters zoom at level 1.5.
    In the useImageViewer hook, the double click in zoom mode always goes to
    frame (zoom 1, pan at the origin), and in any other mode it enters zoom
    at level 1.5. *)
Theorem toggle_zoom_behaviour :
  (forall s,
     (Lightbox.viewerMode s = zoom ->
        Lightbox.viewerMode (Lightbox.toggleZoomShortcut s) = Lightbox.baseViewerMode s) /\
     (Lightbox.viewerMode s <> zoom ->
        Lightbox.viewerMode (Lightbox.toggleZoomShortcut s) = zoom /\
        Lightbox.zoomLevel (Lightbox.toggleZoomShortcut s) = (3 # 2)%Q)) /\
  (forall viewer evs,
     Lightbox.baseViewerMode (Lightbox.run viewer evs)
       = Lightbox.lastNonZoomMode (Lightbox.history viewer Lightbox.initialState evs []) /\
     Lightbox.baseViewerMode (Lightbox.run viewer evs) <> zoom) /\
  (forall s,
     (ImageViewer.viewerMode s = zoom ->
        ImageViewer.viewerMode (ImageViewer.handleDoubleClick s) = frame /\
        ImageViewer.zoomLevel (ImageViewer.handleDoubleClick s) = 1%Q /\
        ImageViewer.panOffset (ImageViewer.handleDoubleClick s) = origin) /\
     (ImageViewer.viewerMode s <> zoom ->
        ImageViewer.viewerMode (ImageViewer.handleDoubleClick s) = zoom /\
        ImageViewer.zoomLevel (ImageViewer.handleDoubleClick s) = (3 # 2)%Q)).
Proof.
  split; [| split].
  - intros s. unfold Lightbox.toggleZoomShortcut. split; intros Hm.
    + destruct (decide (Lightbox.viewerMode s = zoom)); [| contradiction].
      apply viewerMode_handleViewerModeChange.
    + destruct (decide (Lightbox.viewerMode s = zoom)); [contradiction |].
      split; [apply viewerMode_handleViewerModeChange |].
      unfold Lightbox.handleViewerModeChange.
      destruct (decide (Lightbox.viewerMode s = zoom)); [contradiction |].
      destruct (decide (zoom <> zoom)); [congruence |].
      destruct (decide (Lightbox.viewerMode s <> zoom)); [reflexivity | contradiction].
  - intros viewer evs. split.
    + apply history_base; [apply invariant_initial | reflexivity].
    + apply (invariant_run viewer evs).
  - intros s. unfold ImageViewer.handleDoubleClick. split; intros Hm.
    + destruct (decide (ImageViewer.viewerMode s = zoom)); [| contradiction].
      repeat split.
    + destruct (decide (ImageViewer.viewerMode s = zoom)); [contradiction |].
      repeat split.
Qed.

Lemma toggle_zoom_behaviour_witness :
  let s := Lightbox.run None [Cycle; ToggleZoom] in
  Lightbox.viewerMode s = zoom /\
  Lightbox.viewerMode (Lightbox.toggleZoomShortcut s) = fill.
Proof.
  cbv zeta. split; [reflexivity |].
  exact (proj1 (proj1 toggle_zoom_behaviour (Lightbox.run None [Cycle; ToggleZoom])) eq_refl).
Defined.

(** C5, as the specification states it, fails in the hook: from fill mode a
    double click enters zoom, and the next double click lands in frame, not
    in fill. *)
Lemma hook_double_click_forgets_fill :
  let s1 := ImageViewer.run [Cycle] in
  let s2 := ImageViewer.step s1 ToggleZoom in
  let s3 := ImageViewer.step s2 ToggleZoom in
  ImageViewer.viewerMode s1 = fill /\
  ImageViewer.viewerMode s2 = zoom /\
  ImageViewer.viewerMode s3 = frame /\
  ImageViewer.viewerMode s3 <> ImageViewer.viewerMode s1.
Proof. cbv zeta. repeat split. vm_compute. discriminate. Qed.

End ViewerProps.

(** ** Timeline grouper *)
Section TimelineProps.
Import Media Timeline.
Context `{DateApi}.

(** *** The sort *)

Lemma insertBy_Permutation {A} (compare : A -> A -> Z) a l :
  insertBy compare a l ≡ₚ a :: l.
Proof.
  induction l as [| b l IH]; cbn [insertBy]; [reflexivity |].
  destruct (compare a b <=? 0)%Z; [reflexivity |].
  rewrite IH. apply Permutation_swap.
Qed.

Lemma sortBy_Permutation {A} (compare : A -> A -> Z) l : sortBy compare l ≡ₚ l.
Proof.
  induction l as [| a l IH]; [reflexivity |].
  cbn [sortBy foldr]. rewrite insertBy_Permutation. fold (sortBy compare l).
  rewrite IH. reflexivity.
Qed.

(** The sort is stable: groups of equal date keep their order. *)
Lemma insertBy_stable (t : Z) g l :
  filter (fun a => getTime (date a) = t) (insertBy byDateDescending g l)
  = filter (fun a => getTime (date a) = t) (g :: l).
Proof.
  induction l as [| b l IH]; cbn [insertBy]; [reflexivity |].
  destruct (Z.leb_spec (byDateDescending g b) 0) as [Hle | Hgt]; [reflexivity |].
  unfold byDateDescending in Hgt.
  rewrite (filter_cons _ b), IH, !(filter_cons _ g), (filter_cons _ b).
  destruct (decide (getTime (date g) = t)), (decide (getTime (date b) = t));
    try reflexivity.
  lia.
Qed.

Lemma sortBy_stable (t : Z) l :
  filter (fun a => getTime (date a) = t) (sortBy byDateDescending l)
  = filter (fun a => getTime (date a) = t) l.
Proof.
  induction l as [| g l IH]; [reflexivity |].
  cbn [sortBy foldr]. rewrite insertBy_stable. fold (sortBy byDateDescending l).
  rewrite !(filter_cons _ g), IH. reflexivity.
Qed.

Lemma insertBy_sorted g l :
  StronglySorted notEarlier l -> StronglySorted notEarlier (insertBy byDateDescending g l).
Proof.
  induction 1 as [| b l Hsorted IH Hall]; cbn [insertBy].
  - repeat constructor.
  - destruct (Z.leb_spec (byDateDescending g b) 0) as [Hle | Hgt];
      unfold byDateDescending in *.
    + constructor; [constructor; assumption |].
      constructor; [unfold notEarlier; lia |].
      eapply Forall_impl; [exact Hall |].
      unfold notEarlier. intros c Hc. lia.
    + constructor; [exact IH |].
      rewrite insertBy_Permutation. constructor; [unfold notEarlier; lia | exact Hall].
Qed.

Lemma sortBy_sorted l : StronglySorted notEarlier (sortBy byDateDescending l).
Proof.
  induction l as [| a l IH]; [constructor |].
  cbn [sortBy foldr]. apply insertBy_sorted, IH.
Qed.

(** *** The marking loop *)

Lemma date_markGroup previous current : date (markGroup previous current) = date current.
Proof.
  unfold markGroup. destruct previous as [p |]; [| reflexivity].
  destruct (negb _); [reflexivity |]. destruct (negb _); reflexivity.
Qed.

Lemma markFrom_Forall_date (P : JsDate -> Prop) groups : forall previous,
  Forall (fun g => P (date g)) groups ->
  Forall (fun g => P (date g)) (markFrom previous groups).
Proof.
  induction groups as [| g groups IH]; intros previous Hall; [constructor |].
  inversion Hall as [| ? ? Hg Hrest]; subst. cbn [markFrom]. constructor.
  - rewrite date_markGroup. exact Hg.
  - apply IH, Hrest.
Qed.

Lemma markFrom_sorted groups : forall previous,
  StronglySorted notEarlier groups -> StronglySorted notEarlier (markFrom previous groups).
Proof.
  induction groups as [| g groups IH]; intros previous Hs; [constructor |].
  inversion Hs as [| ? ? Hsorted Hall]; subst. cbn [markFrom]. constructor.
  - apply IH, Hsorted.
  - unfold notEarlier in *. rewrite date_markGroup.
    apply (markFrom_Forall_date (fun d => (getTime d <= getTime (date g))%Z)), Hall.
Qed.

(** The group at index [i] of the result is the group at index [i] of the
    sorted array, marked against the result's group at index [i - 1]. *)
Lemma markFrom_lookup groups : forall previous i g,
  markFrom previous groups !! i = Some g ->
  exists g0, groups !! i = Some g0 /\
    g = markGroup (match i with
                   | 0 => previous
                   | S j => markFrom previous groups !! j
                   end) g0.
Proof.
  induction groups as [| a groups IH]; intros previous i g Hg; [discriminate |].
  destruct i as [| i]; cbn [markFrom] in *.
  - injection Hg as <-. exists a. split; reflexivity.
  - cbn in Hg. destruct (IH _ _ _ Hg) as (g0 & Hg0 & ->).
    exists g0. split; [exact Hg0 |]. destruct i; reflexivity.
Qed.

Lemma makeGroup_unmarked entry :
  isNewYear (makeGroup entry) = false /\ isNewMonth (makeGroup entry) = false.
Proof. destruct entry. split; reflexivity. Qed.

Lemma sorted_groups_unmarked images :
  Forall (fun g => isNewYear g = false /\ isNewMonth g = false)
    (sortBy byDateDescending (map makeGroup (groupByDay images))).
Proof.
  rewrite sortBy_Permutation. apply Forall_map, Forall_forall.
  intros entry _. apply makeGroup_unmarked.
Qed.

Lemma markGroup_flags previous g0 :
  isNewYear g0 = false -> isNewMonth g0 = false ->
  (isNewYear (markGroup previous g0) = true <->
     previous = None \/
     exists p, previous = Some p /\ getFullYear (date g0) <> getFullYear (date p)) /\
  (isNewMonth (markGroup previous g0) = true <->
     (exists p, previous = Some p /\ getMonth (date g0) <> getMonth (date p)) \/
     isNewYear (markGroup previous g0) = true).
Proof.
  intros Hy Hm. unfold markGroup. destruct previous as [p |].
  - destruct (Z.eqb_spec (getFullYear (date g0)) (getFullYear (date p))) as [Ey | Ny];
      cbn [negb].
    + destruct (Z.eqb_spec (getMonth (date g0)) (getMonth (date p))) as [Em | Nm];
        cbn [negb setFlags isNewYear isNewMonth].
      * rewrite Hy, Hm. split; split.
        -- discriminate.
        -- intros [Hn | (q & [= <-] & Hq)]; [discriminate | contradiction].
        -- discriminate.
        -- intros [(q & [= <-] & Hq) | Hn]; [contradiction | discriminate].
      * rewrite Hy. split; split.
        -- discriminate.
        -- intros [Hn | (q & [= <-] & Hq)]; [discriminate | contradiction].
        -- intros _. left. exists p. split; [reflexivity | exact Nm].
        -- reflexivity.
    + cbn [setFlags isNewYear isNewMonth]. split; split; try reflexivity.
      * intros _. right. exists p. split; [reflexivity | exact Ny].
      * intros _. right. reflexivity.
  - cbn [setFlags isNewYear isNewMonth]. split; split; try reflexivity.
    + intros _. left. reflexivity.
    + intros _. right. reflexivity.
Qed.

(** *** The grouping by day *)

Lemma pushImage_keys k x groups :
  map fst (pushImage k x groups)
  = if decide (k ∈ map fst groups) then map fst groups else map fst groups ++ [k].
Proof.
  induction groups as [| [k0 i0] groups IH]; cbn [pushImage map fst].
  - rewrite decide_False by apply not_elem_of_nil. reflexivity.
  - destruct (String.eqb_spec k0 k) as [-> | Hne]; cbn [map fst].
    + rewrite decide_True by apply list_elem_of_here. reflexivity.
    + rewrite IH. destruct (decide (k ∈ map fst groups)) as [Hin | Hout].
      * rewrite decide_True by (apply list_elem_of_further, Hin). reflexivity.
      * rewrite decide_False; [reflexivity |].
        intros Hin. apply elem_of_cons in Hin as [-> | Hin]; contradiction.
Qed.

Lemma pushImage_elem k x groups :
  NoDup (map fst groups) ->
  forall k' imgs', (k', imgs') ∈ pushImage k x groups ->
    (k' <> k /\ (k', imgs') ∈ groups) \/
    (k' = k /\ ((exists imgs, (k, imgs) ∈ groups /\ imgs' = imgs ++ [x]) \/
                ((k ∉ map fst groups) /\ imgs' = [x]))).
Proof.
  induction groups as [| [k0 i0] groups IH]; cbn [pushImage map fst]; intros Hnd k' imgs' Hin.
  - apply list_elem_of_singleton in Hin as [= -> ->].
    right. split; [reflexivity |]. right. split; [apply not_elem_of_nil | reflexivity].
  - apply NoDup_cons in Hnd as [Hk0 Hnd].
    destruct (String.eqb_spec k0 k) as [-> | Hne].
    + apply elem_of_cons in Hin as [[= -> ->] | Hin].
      * right. split; [reflexivity |]. left. exists i0.
        split; [apply list_elem_of_here | reflexivity].
      * left. split; [| apply list_elem_of_further, Hin].
        intros ->. apply Hk0. apply (list_elem_of_fmap_2 fst) in Hin. exact Hin.
    + apply elem_of_cons in Hin as [[= -> ->] | Hin].
      * left. split; [exact Hne | apply list_elem_of_here].
      * destruct (IH Hnd _ _ Hin) as [[Hk Hg] | [-> [(imgs & Hg & ->) | [Hout ->]]]].
        -- left. split; [exact Hk | apply list_elem_of_further, Hg].
        -- right. split; [reflexivity |]. left. exists imgs.
           split; [apply list_elem_of_further, Hg | reflexivity].
        -- right. split; [reflexivity |]. right. split; [| reflexivity].
           intros Hin'. apply elem_of_cons in Hin' as [-> | Hin']; contradiction.
Qed.

Lemma pushImage_dayGroups images groups x :
  dayGroupsOf images groups ->
  dayGroupsOf (images ++ [x]) (pushImage (dayKeyOf x) x groups).
Proof.
  intros (Hnd & Hgroups & Hall). split; [| split].
  - rewrite pushImage_keys. destruct (decide (dayKeyOf x ∈ map fst groups)) as [Hin | Hout];
      [exact Hnd |].
    apply NoDup_app. split; [exact Hnd |]. split; [| apply NoDup_singleton].
    intros k Hk Hk'. apply list_elem_of_singleton in Hk' as ->. contradiction.
  - intros k imgs Hin. rewrite filter_app.
    destruct (pushImage_elem _ _ _ Hnd _ _ Hin)
      as [[Hk Hg] | [-> [(imgs0 & Hg & ->) | [Hout ->]]]].
    + destruct (Hgroups _ _ Hg) as [Hne ->]. split; [exact Hne |].
      rewrite (filter_cons_False _ x) by (intros E; apply Hk; symmetry; exact E).
      rewrite filter_nil, app_nil_r. reflexivity.
    + destruct (Hgroups _ _ Hg) as [Hne ->].
      split; [intros E; apply app_eq_nil in E as [_ E]; discriminate |].
      rewrite (filter_cons_True _ x) by reflexivity. reflexivity.
    + split; [discriminate |].
      rewrite (filter_cons_True _ x) by reflexivity. rewrite filter_nil.
      replace (filter (fun image => dayKeyOf image = dayKeyOf x) images) with (@nil ImageMetadata);
        [reflexivity |].
      symmetry. apply elem_of_nil_inv. intros y Hy.
      apply list_elem_of_filter in Hy as [Hky Hy].
      apply Hout. rewrite <- Hky. apply Hall, Hy.
  - intros image Himage. rewrite pushImage_keys.
    apply elem_of_app in Himage as [Hold | Hnew].
    + destruct (decide _); [apply Hall, Hold |].
      apply elem_of_app. left. apply Hall, Hold.
    + apply list_elem_of_singleton in Hnew as ->.
      destruct (decide _) as [Hin | Hout]; [exact Hin |].
      apply elem_of_app. right. apply list_elem_of_singleton. reflexivity.
Qed.

Lemma groupByDay_snoc images x :
  groupByDay (images ++ [x]) = pushImage (dayKeyOf x) x (groupByDay images).
Proof. unfold groupByDay. rewrite fold_left_app. reflexivity. Qed.

Lemma groupByDay_dayGroups images : dayGroupsOf images (groupByDay images).
Proof.
  induction images as [| x images IH] using rev_ind.
  - split; [constructor |]. split.
    + intros k imgs Hin. apply elem_of_nil in Hin. contradiction.
    + intros image Hin. apply elem_of_nil in Hin. contradiction.
  - rewrite groupByDay_snoc. apply pushImage_dayGroups, IH.
Qed.

(** *** The result *)

Lemma markGroup_fields previous g :
  key (markGroup previous g) = key g /\
  images (markGroup previous g) = images g /\
  count (markGroup previous g) = count g.
Proof.
  unfold markGroup. destruct previous as [p |]; [| repeat split].
  destruct (negb _); [repeat split |]. destruct (negb _); repeat split.
Qed.

Lemma markFrom_keys groups : forall previous,
  map key (markFrom previous groups) = map key groups.
Proof.
  induction groups as [| g groups IH]; intros previous; [reflexivity |].
  cbn [markFrom map]. rewrite IH. f_equal. apply markGroup_fields.
Qed.

Lemma timelineGroups_keys images :
  map key (timelineGroups images) ≡ₚ map fst (groupByDay images).
Proof.
  unfold timelineGroups. rewrite markFrom_keys, sortBy_Permutation.
  rewrite map_map. erewrite map_ext; [reflexivity |]. intros [k imgs]. reflexivity.
Qed.

Lemma timelineGroups_elem images g :
  g ∈ timelineGroups images ->
  exists k imgs previous,
    (k, imgs) ∈ groupByDay images /\ g = markGroup previous (makeGroup (k, imgs)).
Proof.
  intros Hg. apply list_elem_of_lookup in Hg as [i Hi].
  apply markFrom_lookup in Hi as (g0 & Hg0 & ->).
  apply list_elem_of_lookup_2 in Hg0. rewrite sortBy_Permutation in Hg0.
  apply list_elem_of_fmap in Hg0 as ([k imgs] & -> & Hentry).
  eexists k, imgs, _. split; [exact Hentry | reflexivity].
Qed.

(** C7. The result is sorted by date, descending; the group at index [i] has
    isNewYear exactly when it is the first group or its year differs from
    that of the group at index [i - 1], and isNewMonth exactly when its
    month differs from that of the group at index [i - 1] or its isNewYear
    is set. The groups are the day-groups of the input: one group for each
    day that occurs, dated by its key, holding the images of that day in
    their order. *)
Theorem timelineGroups_sorted_and_marked (images : list ImageMetadata) :
  let out := timelineGroups images in
  StronglySorted notEarlier out /\
  (forall i g, out !! i = Some g ->
     (isNewYear g = true <->
        i = 0 \/
        exists p, predecessor out i = Some p /\
                  getFullYear (date g) <> getFullYear (date p)) /\
     (isNewMonth g = true <->
        (exists p, predecessor out i = Some p /\ getMonth (date g) <> getMonth (date p)) \/
        isNewYear g = true)) /\
  NoDup (map key out) /\
  (forall g, g ∈ out ->
     date g = newDate (key g) /\ Timeline.images g <> [] /\
     Timeline.images g = filter (fun image => dayKeyOf image = key g) images /\
     count g = List.length (Timeline.images g)) /\
  (forall image, image ∈ images -> dayKeyOf image ∈ map key out).
Proof.
  cbv zeta. destruct (groupByDay_dayGroups images) as (Hnd & Hgroups & Hall).
  split; [| split; [| split; [| split]]].
  - apply markFrom_sorted, sortBy_sorted.
  - intros i g Hi. unfold timelineGroups in *.
    pose proof (sorted_groups_unmarked images) as Hun.
    destruct (markFrom_lookup _ _ _ _ Hi) as (g0 & Hg0 & ->).
    rewrite Forall_forall in Hun.
    destruct (Hun g0 (list_elem_of_lookup_2 _ _ _ Hg0)) as [Hy Hm].
    rewrite date_markGroup.
    destruct (markGroup_flags
                (match i with
                 | 0 => None
                 | S j => markFrom None
                            (sortBy byDateDescending (map makeGroup (groupByDay images))) !! j
                 end) g0 Hy Hm) as [Hyear Hmonth].
    split.
    + rewrite Hyear. unfold predecessor. destruct i as [| j].
      * split; [intros _; left; reflexivity | intros _; left; reflexivity].
      * split.
        -- intros [Hnone | Hsome]; [| right; exact Hsome].
           exfalso. apply lookup_lt_Some in Hi.
           apply lookup_ge_None in Hnone. lia.
        -- intros [Hzero | Hsome]; [discriminate | right; exact Hsome].
    + rewrite Hmonth. unfold predecessor. destruct i; reflexivity.
  - rewrite timelineGroups_keys. exact Hnd.
  - intros g Hg. destruct (timelineGroups_elem images g Hg) as (k & imgs & previous & Hentry & ->).
    rewrite date_markGroup.
    destruct (markGroup_fields previous (makeGroup (k, imgs))) as (-> & -> & ->).
    destruct (Hgroups _ _ Hentry) as [Hne Himgs]. cbn [makeGroup key date Timeline.images count].
    repeat split; assumption.
  - intros image Himage. rewrite timelineGroups_keys. apply Hall, Himage.
Qed.

End TimelineProps.

(** ** The timeline on a UTC host *)
Section TimelineExamples.
Import Media Timeline.

(** Images of 2025-01-05 and 2025-02-10 give two groups; February comes
    first and opens the year and the month, January opens a month only. *)
Example timeline_two_months :
  let out := @timelineGroups Samples.utcHost
               [Samples.imageOn 1 "2025-01-05T10:00:00";
                Samples.imageOn 2 "2025-02-10T08:30:00";
                Samples.imageOn 3 "2025-01-05T18:45:00"] in
  map (fun g => (key g, count g, isNewYear g, isNewMonth g)) out
  = [("2025-02-10", 1, true, true); ("2025-01-05", 2, false, true)].
Proof. vm_compute. reflexivity. Qed.

Example timeline_year_boundary :
  let out := @timelineGroups Samples.utcHost
               [Samples.imageOn 1 "2024-12-31T23:00:00";
                Samples.imageOn 2 "2025-01-01T00:10:00";
                Samples.imageOn 3 "2025-01-02T09:00:00"] in
  map (fun g => (key g, isNewYear g, isNewMonth g)) out
  = [("2025-01-02", true, true); ("2025-01-01", false, false); ("2024-12-31", true, true)].
Proof. vm_compute. reflexivity. Qed.

End TimelineExamples.

(* ===================================================================== *)
(** * Part III: further properties of the code                            *)
(* ===================================================================== *)

(** ** Gallery loader: cancellation, silence of the background, resources *)
Section GalleryMoreProps.
Import Media Gallery.

Lemma loadRemainingLoop_cancelled srv cancelled fuel total0 p :
  cancelled p = true ->
  forall currentPage acc st,
    currentPage <= p + 1 ->
    Forall (fun r => r.1 <= p)
      (requests (log (loadRemainingLoop srv cancelled fuel total0 currentPage acc st))) /\
    List.length (updates (log (loadRemainingLoop srv cancelled fuel total0 currentPage acc st)))
      <= p - currentPage.
Proof.
  intros Hp. induction fuel as [| fuel IH]; intros currentPage acc st Hle;
    cbn [loadRemainingLoop].
  - destruct (_ && _); cbn; split; (constructor || lia).
  - destruct (ltCount (List.length acc) total0); cbn [andb];
      [| cbn; split; [constructor | lia]].
    destruct (cancelled (currentPage - 1)) eqn:Hprev; cbn [negb];
      [cbn; split; [constructor | lia] |].
    assert (Hcur : currentPage <= p).
    { destruct (decide (currentPage = p + 1)) as [-> | Hne]; [| lia].
      replace (p + 1 - 1) with p in Hprev by lia. congruence. }
    destruct (srv currentPage 60) as [r | e];
      [| cbn; split; [repeat constructor; exact Hcur | lia]].
    destruct (cancelled currentPage) eqn:Hnow; cbn [negb andb];
      [cbn; split; [repeat constructor; exact Hcur | lia] |].
    destruct (0 <? List.length (Media.items r));
      [| cbn; split; [repeat constructor; exact Hcur | lia]].
    assert (Hlt : currentPage < p).
    { destruct (decide (currentPage = p)) as [-> | Hne]; [congruence | lia]. }
    destruct (IH (currentPage + 1) (acc ++ Media.items r)
                {| items := acc ++ Media.items r; total := total st;
                   loading := loading st; error := error st |}) as [Hreq Hupd]; [lia |].
    cbn [andThen log]. rewrite requests_app, updates_app. cbn [requests updates omap app].
    split.
    + constructor; [exact Hcur | exact Hreq].
    + rewrite length_app. simpl (List.length (updates [_; _])). lia.
Qed.

(** X1. Once the [cancelled] flag has been seen set when page [p] was
    answered, the load asks for no page beyond [p], and writes the state at
    most [p] times (the loading state and one update for each page before
    [p]): nothing answered at or after the cancellation is applied. *)
Theorem load_stops_when_cancelled gallery srv cancelled fuel st p :
  1 <= p -> cancelled p = true ->
  Forall (fun r => r.1 <= p) (requests (log (load gallery srv cancelled fuel st))) /\
  List.length (updates (log (load gallery srv cancelled fuel st))) <= p.
Proof.
  intros Hp1 Hp. unfold load.
  destruct (srv 1 30) as [r | e]; destruct (cancelled 1) eqn:H1; cbn [negb];
    try (cbn; split; [repeat constructor; exact Hp1 | lia]).
  - assert (Hp2 : 2 <= p).
    { destruct (decide (p = 1)) as [-> | Hne]; [congruence | lia]. }
    destruct (gtCount _ _); [| cbn; split; [repeat constructor; exact Hp1 | lia]].
    unfold loadRemainingPages.
    destruct (loadRemainingLoop_cancelled srv cancelled fuel (Media.total r) p Hp 2
                (items gallery)
                {| items := Media.items r; total := Media.total r;
                   loading := false; error := None |}) as [Hreq Hupd]; [lia |].
    cbn [andThen log]. rewrite requests_app, updates_app. cbn [requests updates omap app].
    split.
    + constructor; [exact Hp1 | exact Hreq].
    + rewrite length_app. simpl (List.length (updates [_; _; _])). lia.
  - assert (Hp2 : 2 <= p).
    { destruct (decide (p = 1)) as [-> | Hne]; [congruence | lia]. }
    cbn. split; [repeat constructor; exact Hp1 | lia].
Qed.

Lemma load_stops_when_cancelled_witness :
  let cancelledAtTwo := fun p => 2 <=? p in
  let run := load initialGallery (Samples.pagedServer (Samples.library 400))
               cancelledAtTwo 9 initialGallery in
  Forall (fun r => r.1 <= 2) (requests (log run)) /\ List.length (updates (log run)) <= 2.
Proof.
  cbv zeta.
  apply (load_stops_when_cancelled initialGallery
           (Samples.pagedServer (Samples.library 400)) (fun p => 2 <=? p) 9
           initialGallery 2); [lia | reflexivity].
Defined.

Lemma loadRemainingLoop_keeps srv cancelled fuel total0 :
  forall currentPage acc st,
    let run := loadRemainingLoop srv cancelled fuel total0 currentPage acc st in
    Forall (fun st' => total st' = total st /\ loading st' = loading st /\
                       error st' = error st) (final run :: updates (log run)).
Proof.
  induction fuel as [| fuel IH]; intros currentPage acc st; cbn [loadRemainingLoop].
  - destruct (_ && _); repeat constructor.
  - destruct (_ && _); [| repeat constructor].
    destruct (srv currentPage 60) as [r | e]; [| repeat constructor].
    destruct (_ && _); [| repeat constructor].
    specialize (IH (currentPage + 1) (acc ++ Media.items r)
                  {| items := acc ++ Media.items r; total := total st;
                     loading := loading st; error := error st |}).
    cbv zeta in IH. inversion IH as [| ? ? Hfinal Hrest]; subst.
    cbn [andThen log final]. rewrite updates_app. constructor; [exact Hfinal |].
    simpl (updates [_; _]). constructor; [repeat split | exact Hrest].
Qed.

(** X2. Once the first page has been applied, nothing the load does later
    touches loading, error or total: every later state, and the state the
    load leaves, has loading = false, no error, and the total of the first
    answer. A background page that fails, comes back empty or is cancelled
    ends the load without a trace in the state. *)
Theorem load_background_is_silent gallery srv cancelled fuel st firstPage :
  srv 1 30 = Resolved firstPage -> cancelled 1 = false ->
  let run := load gallery srv cancelled fuel st in
  Forall (fun st' => loading st' = false /\ error st' = None /\
                     total st' = Media.total firstPage)
    (final run :: drop 1 (updates (log run))).
Proof.
  intros Hres Hc. cbv zeta. unfold load. rewrite Hres, Hc. cbn [negb].
  destruct (gtCount _ _); [| repeat constructor].
  unfold loadRemainingPages.
  pose proof (loadRemainingLoop_keeps srv cancelled fuel (Media.total firstPage) 2
                (items gallery)
                {| items := Media.items firstPage; total := Media.total firstPage;
                   loading := false; error := None |}) as Hkeep.
  cbv zeta in Hkeep. inversion Hkeep as [| ? ? Hfinal Hrest]; subst.
  cbn [andThen log final]. rewrite updates_app. simpl (updates [_; _; _]).
  cbn [app drop]. constructor; [| constructor; [repeat split |]].
  - destruct Hfinal as (-> & -> & ->). repeat split.
  - eapply Forall_impl; [exact Hrest |].
    intros st' (-> & -> & ->). repeat split.
Qed.

Lemma load_background_is_silent_witness :
  let srv := fun page page_size =>
               if page =? 2 then Rejected (ErrorObject "Request failed with status 502")
               else Samples.pagedServer (Samples.library 100) page page_size in
  let run := load initialGallery srv Samples.neverCancelled 5 initialGallery in
  Forall (fun st' => loading st' = false /\ error st' = None /\ total st' = Fin 100)
    (final run :: drop 1 (updates (log run))).
Proof.
  cbv zeta.
  exact (load_background_is_silent initialGallery
           (fun page page_size =>
              if page =? 2 then Rejected (ErrorObject "Request failed with status 502")
              else Samples.pagedServer (Samples.library 100) page page_size)
           Samples.neverCancelled 5 initialGallery
           {| Media.items := Samples.library 30; page := 1; page_size := 30;
              Media.total := Fin 100 |} eq_refl eq_refl).
Defined.

Lemma loadRemainingLoop_completes srv cancelled t :
  forall fuel currentPage acc st,
    t - List.length acc <= fuel ->
    let run := loadRemainingLoop srv cancelled fuel (Fin t) currentPage acc st in
    completed run = true /\ List.length (requests (log run)) <= t - List.length acc.
Proof.
  induction fuel as [| fuel IH]; intros currentPage acc st Hfuel; cbn [loadRemainingLoop ltCount].
  - destruct (Nat.ltb_spec (List.length acc) t) as [Hlt | Hge]; [lia |].
    cbn. split; [reflexivity | lia].
  - destruct (Nat.ltb_spec (List.length acc) t) as [Hlt | Hge]; cbn [andb];
      [| cbn; split; [reflexivity | lia]].
    destruct (negb (cancelled (currentPage - 1))); [| cbn; split; [reflexivity | lia]].
    destruct (srv currentPage 60) as [r | e]; [| cbn; split; [reflexivity | lia]].
    destruct (negb (cancelled currentPage)); cbn [andb]; [| cbn; split; [reflexivity | lia]].
    destruct (Nat.ltb_spec 0 (List.length (Media.items r))) as [Hpos | Hzero];
      [| cbn; split; [reflexivity | lia]].
    destruct (IH (currentPage + 1) (acc ++ Media.items r)
                {| items := acc ++ Media.items r; total := total st;
                   loading := loading st; error := error st |}) as [Hdone Hreq].
    { rewrite length_app. lia. }
    cbn [andThen completed log]. split; [exact Hdone |].
    rewrite requests_app, length_app. simpl (List.length (requests [_; _])).
    rewrite length_app in Hreq. lia.
Qed.

(** X3. When the first answer reports a finite total [t], the load comes to
    its end, and after at most [t + 1] requests: every background request
    that does not end the load adds at least one item to a list that was
    shorter than [t]. *)
Theorem load_completes_with_finite_total gallery srv cancelled fuel st firstPage t :
  srv 1 30 = Resolved firstPage -> Media.total firstPage = Fin t -> t <= fuel ->
  completed (load gallery srv cancelled fuel st) = true /\
  List.length (requests (log (load gallery srv cancelled fuel st))) <= t + 1.
Proof.
  intros Hres Htot Hfuel. unfold load. rewrite Hres.
  destruct (negb (cancelled 1)); [| cbn; split; [reflexivity | lia]].
  destruct (gtCount _ _); [| cbn; split; [reflexivity | lia]].
  unfold loadRemainingPages. rewrite Htot.
  destruct (loadRemainingLoop_completes srv cancelled t fuel 2 (items gallery)
              {| items := Media.items firstPage; total := Fin t;
                 loading := false; error := None |}) as [Hdone Hreq]; [lia |].
  cbn [andThen completed log]. split; [exact Hdone |].
  rewrite requests_app, length_app. simpl (List.length (requests [_; _; _])). lia.
Qed.

Lemma load_completes_with_finite_total_witness :
  let run := load initialGallery (Samples.pagedServer (Samples.library 100))
               Samples.neverCancelled 100 initialGallery in
  completed run = true /\ List.length (requests (log run)) <= 100 + 1.
Proof.
  cbv zeta.
  apply (load_completes_with_finite_total initialGallery
           (Samples.pagedServer (Samples.library 100)) Samples.neverCancelled 100
           initialGallery
           {| Media.items := Samples.library 30; page := 1; page_size := 30;
              Media.total := Fin 100 |} 100); [reflexivity | reflexivity | lia].
Defined.

End GalleryMoreProps.

(** ** [fetchAllImages]: a paging server, a failing page *)
Section FetchAllImagesMoreProps.
Import Media Api.

Lemma fetchAllLoop_paged srv lib bs :
  1 <= bs -> pagesOf srv bs lib ->
  forall fuel k,
    List.length lib - k * bs <= fuel ->
    fetchAllLoop srv bs fuel (k + 1) (Fin (List.length lib)) (take (k * bs) lib)
    = Some (Returned {| allItems := lib; allTotal := List.length lib |}).
Proof.
  intros Hbs Hsrv. induction fuel as [| fuel IH]; intros k Hfuel.
  - rewrite fetchAllLoop_exit.
    + rewrite take_ge by lia. reflexivity.
    + cbn [ltCount]. rewrite length_take. apply Nat.ltb_ge. lia.
  - destruct (Nat.le_gt_cases (List.length lib) (k * bs)) as [Hall | Hmore].
    + rewrite fetchAllLoop_exit.
      * rewrite take_ge by lia. reflexivity.
      * cbn [ltCount]. rewrite length_take. apply Nat.ltb_ge. lia.
    + destruct (Hsrv (k + 1)) as (r & Hr & Hitems & Htotal).
      replace (k + 1 - 1) with k in Hitems by lia.
      rewrite (fetchAllLoop_next _ _ _ _ _ _ r).
      * rewrite Hitems, Htotal, take_take_drop.
        replace (k * bs + bs) with ((k + 1) * bs) by lia.
        apply IH. lia.
      * cbn [ltCount]. rewrite length_take. apply Nat.ltb_lt. lia.
      * exact Hr.
      * rewrite Hitems. intros Hnil.
        apply (f_equal (@List.length _)) in Hnil.
        rewrite length_take, length_drop in Hnil. cbn in Hnil. lia.
Qed.

(** X4. Against a server that pages a fixed list (page [p] of size [s] is the
    slice at offset [(p - 1) * s], the total is the length of the list),
    [fetchAllImages] with a batch size of at least 1 returns exactly that
    list, in order, with its length as the total. *)
Theorem fetchAllImages_paged srv lib bs fuel :
  1 <= bs -> pagesOf srv bs lib -> List.length lib < fuel ->
  fetchAllImages srv bs fuel
  = Some (Returned {| allItems := lib; allTotal := List.length lib |}).
Proof.
  intros Hbs Hsrv Hfuel. unfold fetchAllImages.
  destruct fuel as [| fuel]; [lia |].
  destruct (Hsrv 1) as (r & Hr & Hitems & Htotal).
  change (drop ((1 - 1) * bs) lib) with lib in Hitems.
  destruct lib as [| x lib].
  - rewrite take_nil in Hitems.
    rewrite (fetchAllLoop_empty _ _ _ _ _ _ r); [| reflexivity | exact Hr | exact Hitems].
    rewrite Hitems, Htotal. reflexivity.
  - rewrite (fetchAllLoop_next _ _ _ _ _ _ r); [| reflexivity | exact Hr |].
    + rewrite Hitems, Htotal. cbn [app].
      pose proof (fetchAllLoop_paged srv (x :: lib) bs Hbs Hsrv fuel 1) as Hloop.
      rewrite Nat.mul_1_l in Hloop. apply Hloop. cbn [List.length] in *. lia.
    + rewrite Hitems. destruct bs; [lia | discriminate].
Qed.

Lemma fetchAllImages_paged_witness :
  fetchAllImages (Samples.pagedServer (Samples.library 7)) 3 8
  = Some (Returned {| allItems := Samples.library 7; allTotal := 7 |}).
Proof.
  apply (fetchAllImages_paged (Samples.pagedServer (Samples.library 7))
           (Samples.library 7) 3 8); [lia | | cbn; lia].
  intros p. eexists. split; [reflexivity |]. split; reflexivity.
Defined.

Lemma fetchAllLoop_rejected srv bs e d : forall page total items,
  ltCount (List.length items) total = true ->
  (forall k, k < d -> exists r, srv (page + k) bs = Resolved r /\ Media.items r <> [] /\
     ltCount (List.length (items ++ pagesFrom srv bs page (S k))) (Media.total r) = true) ->
  srv (page + d) bs = Rejected e ->
  forall fuel, S d <= fuel ->
    fetchAllLoop srv bs fuel page total items = Some (Threw e).
Proof.
  induction d as [| d IH]; intros page total items Hlt Hcont Hrej fuel Hfuel;
    (destruct fuel as [| fuel]; [lia |]).
  - rewrite Nat.add_0_r in Hrej. cbn [fetchAllLoop]. rewrite Hlt, Hrej. reflexivity.
  - destruct (Hcont 0) as (r0 & Hr0 & Hne & Hlt0); [lia |].
    rewrite Nat.add_0_r in Hr0.
    rewrite pagesFrom_cons, (pageItems_resolved _ _ _ _ Hr0) in Hlt0.
    cbn [pagesFrom seq map concat] in Hlt0. rewrite app_nil_r in Hlt0.
    rewrite (fetchAllLoop_next _ _ _ _ _ _ r0) by assumption.
    apply IH; [exact Hlt0 | | | lia].
    + intros k Hk. destruct (Hcont (S k)) as (rk & Hrk & Hnek & Hltk); [lia |].
      exists rk. split; [| split; [exact Hnek |]].
      * rewrite <- Hrk. f_equal. lia.
      * rewrite pagesFrom_cons, (pageItems_resolved _ _ _ _ Hr0), app_assoc in Hltk.
        replace (page + 1) with (S page) by lia. exact Hltk.
    + rewrite <- Hrej. f_equal. lia.
Qed.

(** X5. When the request for page [n] fails after pages [1..n-1] kept the
    loop going, [fetchAllImages] fails with the same error: the items of the
    earlier pages are not returned. *)
Theorem fetchAllImages_rejected srv bs n e :
  1 <= n ->
  (forall k, 1 <= k < n -> continuesAt srv bs k) ->
  srv n bs = Rejected e ->
  forall fuel, n <= fuel -> fetchAllImages srv bs fuel = Some (Threw e).
Proof.
  intros Hn Hcont Hrej fuel Hfuel. destruct n as [| d]; [lia |].
  unfold fetchAllImages.
  apply (fetchAllLoop_rejected srv bs e d 1 Infinity [] eq_refl); [| exact Hrej | exact Hfuel].
  intros k Hk. destruct (Hcont (1 + k)) as (rk & Hrk & Hnek & Hltk); [lia |].
  exists rk. repeat split; assumption.
Qed.

Lemma fetchAllImages_rejected_witness :
  fetchAllImages
    (fun page page_size =>
       if page =? 2 then Rejected (ErrorObject "Request failed with status 500")
       else Samples.pagedServer (Samples.library 7) page page_size) 3 5
  = Some (Threw (ErrorObject "Request failed with status 500")).
Proof.
  apply (fetchAllImages_rejected _ 3 2 (ErrorObject "Request failed with status 500"));
    [lia | | reflexivity | lia].
  intros k Hk. assert (k = 1) as -> by lia.
  eexists. split; [reflexivity |]. split; [discriminate | reflexivity].
Defined.

End FetchAllImagesMoreProps.

(** ** Viewer: cycling, zoom range, gestures *)
Section ViewerMoreProps.
Import Viewer.

Lemma nextMode_three (m : ViewerMode) : nextMode (nextMode (nextMode m)) = m.
Proof. destruct m; reflexivity. Qed.

Lemma viewerMode_cycleViewerMode s :
  Lightbox.viewerMode (Lightbox.cycleViewerMode s) = nextMode (Lightbox.viewerMode s).
Proof. apply viewerMode_handleViewerModeChange. Qed.

(** X6. Three cycles bring the viewer back to the mode it started from, in
    the lightbox and in the hook, from any state; one or two cycles never
    do. *)
Theorem cycle_returns_after_three :
  (forall s,
     Lightbox.viewerMode
       (Lightbox.cycleViewerMode (Lightbox.cycleViewerMode (Lightbox.cycleViewerMode s)))
     = Lightbox.viewerMode s /\
     Lightbox.viewerMode (Lightbox.cycleViewerMode s) <> Lightbox.viewerMode s /\
     Lightbox.viewerMode (Lightbox.cycleViewerMode (Lightbox.cycleViewerMode s))
     <> Lightbox.viewerMode s) /\
  (forall s,
     ImageViewer.viewerMode
       (ImageViewer.cycleViewerMode
          (ImageViewer.cycleViewerMode (ImageViewer.cycleViewerMode s)))
     = ImageViewer.viewerMode s /\
     ImageViewer.viewerMode (ImageViewer.cycleViewerMode s) <> ImageViewer.viewerMode s /\
     ImageViewer.viewerMode (ImageViewer.cycleViewerMode (ImageViewer.cycleViewerMode s))
     <> ImageViewer.viewerMode s).
Proof.
  split; intros s.
  - rewrite !viewerMode_cycleViewerMode.
    destruct (Lightbox.viewerMode s); repeat split; discriminate.
  - cbn. destruct (ImageViewer.viewerMode s); repeat split; discriminate.
Qed.

Lemma clampZoom_range (z : Q) : zoomInRange (clampZoom z).
Proof.
  unfold zoomInRange, clampZoom. split; [apply Q.le_max_l |].
  apply Q.max_lub; [unfold MIN_ZOOM, MAX_ZOOM; lra | apply Q.le_min_l].
Qed.

Lemma one_in_range : zoomInRange 1.
Proof. unfold zoomInRange, MIN_ZOOM, MAX_ZOOM. lra. Qed.

Lemma three_halves_in_range : zoomInRange (3 # 2).
Proof. unfold zoomInRange, MIN_ZOOM, MAX_ZOOM. lra. Qed.

Lemma zoomInRange_handleViewerModeChange mode s :
  zoomInRange (Lightbox.zoomLevel s) ->
  zoomInRange (Lightbox.zoomLevel (Lightbox.handleViewerModeChange mode s)).
Proof.
  intros Hs. unfold Lightbox.handleViewerModeChange.
  destruct (decide _); [exact Hs |].
  destruct (decide _); [apply one_in_range |].
  destruct (decide _); [apply three_halves_in_range | exact Hs].
Qed.

Lemma zoomInRange_step viewer s ev :
  zoomInRange (Lightbox.zoomLevel s) ->
  zoomInRange (Lightbox.zoomLevel (Lightbox.step viewer s ev)).
Proof.
  intros Hs. destruct ev as [deltaY | id cx cy | id cx cy | id | |]; cbn [Lightbox.step].
  - apply clampZoom_range.
  - unfold Lightbox.handleViewerPointerDown. destruct (decide _); exact Hs.
  - unfold Lightbox.handleViewerPointerMove. destruct (decide _); [exact Hs |].
    destruct (Lightbox.panStartRef s); [| exact Hs]. destruct (decide _); exact Hs.
  - unfold Lightbox.handleViewerPointerUpOrCancel.
    destruct (Lightbox.panStartRef s); [| exact Hs]. destruct (decide _); exact Hs.
  - apply zoomInRange_handleViewerModeChange, Hs.
  - unfold Lightbox.toggleZoomShortcut.
    destruct (decide _); apply zoomInRange_handleViewerModeChange, Hs.
Qed.

(** X7. In the lightbox the zoom level of every reachable state lies in
    [0.5, 5], whatever the number and direction of the wheel events, and it
    is exactly 1 outside zoom mode. *)
Theorem lightbox_zoom_in_range viewer evs :
  zoomInRange (Lightbox.zoomLevel (Lightbox.run viewer evs)) /\
  (Lightbox.viewerMode (Lightbox.run viewer evs) <> zoom ->
     Lightbox.zoomLevel (Lightbox.run viewer evs) = 1%Q).
Proof.
  split.
  - unfold Lightbox.run. generalize one_in_range.
    change 1%Q with (Lightbox.zoomLevel Lightbox.initialState).
    generalize Lightbox.initialState.
    induction evs as [| ev evs IH]; intros s Hs; [exact Hs |].
    cbn [fold_left]. apply IH, zoomInRange_step, Hs.
  - intros Hm. apply (invariant_run viewer evs), Hm.
Qed.

Lemma hook_zoomInRange_step s ev :
  zoomInRange (ImageViewer.zoomLevel s) ->
  zoomInRange (ImageViewer.zoomLevel (ImageViewer.step s ev)).
Proof.
  intros Hs. destruct ev as [deltaY | id cx cy | id cx cy | id | |]; cbn [ImageViewer.step].
  - unfold ImageViewer.handleWheel. destruct (decide _); [exact Hs | apply clampZoom_range].
  - unfold ImageViewer.handlePointerDown. destruct (decide _); exact Hs.
  - unfold ImageViewer.handlePointerMove. destruct (_ || _); exact Hs.
  - exact Hs.
  - apply one_in_range.
  - unfold ImageViewer.handleDoubleClick.
    destruct (decide _); [apply one_in_range | apply three_halves_in_range].
Qed.

(** X8. In the hook the zoom level of every reachable state lies in
    [0.5, 5]. *)
Theorem hook_zoom_in_range evs : zoomInRange (ImageViewer.zoomLevel (ImageViewer.run evs)).
Proof.
  unfold ImageViewer.run. generalize one_in_range.
  change 1%Q with (ImageViewer.zoomLevel ImageViewer.initialState).
  generalize ImageViewer.initialState.
  induction evs as [| ev evs IH]; intros s Hs; [exact Hs |].
  cbn [fold_left]. apply IH, hook_zoomInRange_step, Hs.
Qed.

Lemma gestureConsistent_handleViewerModeChange mode s :
  Lightbox.gestureConsistent s ->
  Lightbox.gestureConsistent (Lightbox.handleViewerModeChange mode s).
Proof.
  intros [Hflag Hmode]. unfold Lightbox.handleViewerModeChange.
  destruct (decide _); [split; assumption |].
  destruct (decide (mode <> zoom)) as [Hnz | Hz].
  - split; cbn; [| reflexivity].
    split; [discriminate | intros [? [=]]].
  - destruct (decide (Lightbox.viewerMode s <> zoom)) as [Hc | Hc].
    + split; cbn.
      * rewrite (Hmode Hc). split; [discriminate | intros [? [=]]].
      * intros _. apply Hmode, Hc.
    + split; cbn; [exact Hflag |]. intros Hm. apply not_not_zoom in Hz. contradiction.
Qed.

Lemma gestureConsistent_step viewer s ev :
  Lightbox.gestureConsistent s -> Lightbox.gestureConsistent (Lightbox.step viewer s ev).
Proof.
  intros Hs. destruct ev as [deltaY | id cx cy | id cx cy | id | |]; cbn [Lightbox.step].
  - unfold Lightbox.handleViewerWheel.
    set (s1 := if decide (Lightbox.viewerMode s <> zoom)
               then Lightbox.handleViewerModeChange zoom s else s).
    assert (H1 : Lightbox.gestureConsistent s1).
    { subst s1. destruct (decide _); [apply gestureConsistent_handleViewerModeChange |];
        exact Hs. }
    exact H1.
  - unfold Lightbox.handleViewerPointerDown.
    destruct (decide (Lightbox.viewerMode s <> zoom)) as [Hnz | Hz]; [exact Hs |].
    split; cbn.
    + split; [intros _; eexists; reflexivity | reflexivity].
    + intros Hm. contradiction.
  - unfold Lightbox.handleViewerPointerMove. destruct (decide _); [exact Hs |].
    destruct (Lightbox.panStartRef s) eqn:Hstart; [| exact Hs].
    destruct (decide _); [exact Hs |]. destruct Hs as [Hflag Hmode].
    split; cbn; [rewrite Hstart in Hflag; exact Hflag | exact Hmode].
  - unfold Lightbox.handleViewerPointerUpOrCancel.
    destruct (Lightbox.panStartRef s); [| exact Hs]. destruct (decide _); [exact Hs |].
    split; cbn; [| reflexivity]. split; [discriminate | intros [? [=]]].
  - apply gestureConsistent_handleViewerModeChange, Hs.
  - unfold Lightbox.toggleZoomShortcut.
    destruct (decide _); apply gestureConsistent_handleViewerModeChange, Hs.
Qed.

(** X9. In every reachable state of the lightbox viewer, [isPanning] is set
    exactly when a gesture start is held in [panStartRef], and it is never
    set outside zoom mode: leaving zoom mode in the middle of a drag ends the
    drag. *)
Theorem lightbox_gesture_consistent viewer evs :
  Lightbox.gestureConsistent (Lightbox.run viewer evs).
Proof.
  unfold Lightbox.run.
  assert (H0 : Lightbox.gestureConsistent Lightbox.initialState).
  { split; cbn; [| reflexivity]. split; [discriminate | intros [? [=]]]. }
  revert H0. generalize Lightbox.initialState.
  induction evs as [| ev evs IH]; intros s Hs; [exact Hs |].
  cbn [fold_left]. apply IH, gestureConsistent_step, Hs.
Qed.

(** X10. [resetZoomState], run when the displayed image changes, puts the
    lightbox viewer in frame mode at zoom 1 with no pan and no gesture, but
    leaves [baseViewerMode] as it was: toggling zoom on and off after the
    reset lands in the base mode of the previous image, not in frame. *)
Theorem resetZoomState_keeps_base s :
  Lightbox.baseViewerMode s <> zoom ->
  let r := Lightbox.resetZoomState s in
  Lightbox.viewerMode r = frame /\ Lightbox.zoomLevel r = 1%Q /\
  Lightbox.panOffset r = origin /\ Lightbox.isPanning r = false /\
  Lightbox.panStartRef r = None /\
  Lightbox.baseViewerMode r = Lightbox.baseViewerMode s /\
  Lightbox.viewerMode (Lightbox.toggleZoomShortcut (Lightbox.toggleZoomShortcut r))
  = Lightbox.baseViewerMode s.
Proof.
  intros Hbase. cbv zeta. repeat split.
  assert (Hfirst : Lightbox.toggleZoomShortcut (Lightbox.resetZoomState s)
                   = Lightbox.handleViewerModeChange zoom (Lightbox.resetZoomState s)).
  { unfold Lightbox.toggleZoomShortcut.
    destruct (decide _) as [Hz | Hnz]; [discriminate Hz | reflexivity]. }
  rewrite Hfirst. unfold Lightbox.toggleZoomShortcut.
  rewrite viewerMode_handleViewerModeChange.
  destruct (decide (zoom = zoom)); [| contradiction].
  rewrite viewerMode_handleViewerModeChange.
  rewrite baseViewerMode_handleViewerModeChange_zoom. reflexivity.
Qed.

Lemma resetZoomState_keeps_base_witness :
  let s := Lightbox.run None [Cycle] in
  Lightbox.viewerMode (Lightbox.resetZoomState s) = frame /\
  Lightbox.viewerMode
    (Lightbox.toggleZoomShortcut (Lightbox.toggleZoomShortcut (Lightbox.resetZoomState s)))
  = fill.
Proof.
  cbv zeta.
  pose proof (resetZoomState_keeps_base (Lightbox.run None [Cycle])) as H.
  cbv zeta in H. split; [apply H; discriminate |].
  apply (proj2 (proj2 (proj2 (proj2 (proj2 (proj2 (H ltac:(discriminate)))))))).
Defined.



Lemma hook_idle_step s ev :
  isPointerOrWheel ev = true ->
  ImageViewer.viewerMode s <> zoom ->
  ImageViewer.viewerMode (ImageViewer.step s ev) = ImageViewer.viewerMode s /\
  ImageViewer.zoomLevel (ImageViewer.step s ev) = ImageViewer.zoomLevel s /\
  ImageViewer.panOffset (ImageViewer.step s ev) = ImageViewer.panOffset s.
Proof.
  intros Hev Hm. destruct ev as [deltaY | id cx cy | id cx cy | id | |];
    try discriminate Hev; cbn [ImageViewer.step].
  - unfold ImageViewer.handleWheel. destruct (decide _); [| contradiction]. repeat split.
  - unfold ImageViewer.handlePointerDown. destruct (decide _); [| contradiction]. repeat split.
  - unfold ImageViewer.handlePointerMove.
    rewrite (bool_decide_eq_true_2 _ Hm), orb_true_r. repeat split.
  - repeat split.
Qed.

Lemma hook_idle_fold evs : forall s,
  ImageViewer.viewerMode s <> zoom ->
  forallb isPointerOrWheel evs = true ->
  ImageViewer.viewerMode (fold_left ImageViewer.step evs s) = ImageViewer.viewerMode s /\
  ImageViewer.zoomLevel (fold_left ImageViewer.step evs s) = ImageViewer.zoomLevel s /\
  ImageViewer.panOffset (fold_left ImageViewer.step evs s) = ImageViewer.panOffset s.
Proof.
  induction evs as [| ev evs IH]; intros s Hm Hall; [repeat split |].
  cbn [forallb] in Hall. apply andb_true_iff in Hall as [Hev Hall].
  destruct (hook_idle_step s ev Hev Hm) as (Hmode & Hzoom & Hpan).
  cbn [fold_left]. rewrite <- Hmode, <- Hzoom, <- Hpan.
  apply IH; [rewrite Hmode; exact Hm | exact Hall].
Qed.

(** X12. The hook never enters zoom mode by itself: after any sequence of
    wheel and pointer events from the initial state it is still in frame
    mode at zoom 1 with the pan at the origin (the lightbox, by contrast,
    enters zoom mode on the first wheel event). *)
Theorem hook_ignores_wheel_and_pointer evs :
  forallb isPointerOrWheel evs = true ->
  ImageViewer.viewerMode (ImageViewer.run evs) = frame /\
  ImageViewer.zoomLevel (ImageViewer.run evs) = 1%Q /\
  ImageViewer.panOffset (ImageViewer.run evs) = origin.
Proof.
  intros Hall.
  apply (hook_idle_fold evs ImageViewer.initialState); [discriminate | exact Hall].
Qed.

Lemma hook_ignores_wheel_and_pointer_witness :
  ImageViewer.viewerMode
    (ImageViewer.run [Wheel (-120); PointerDown 1 10 10; PointerMove 1 90 40; PointerUp 1])
  = frame.
Proof.
  apply (proj1 (hook_ignores_wheel_and_pointer
                  [Wheel (-120); PointerDown 1 10 10; PointerMove 1 90 40; PointerUp 1]
                  eq_refl)).
Defined.

End ViewerMoreProps.

(** ** Favorites: counting and order of toggles *)
Section FavoritesMoreProps.
Import Favorites.

(** X13. A toggle changes the number of favorites by exactly one: down when
    the image was a favorite, up when it was not; and it flips what
    [isFavorite] answers for that image. *)
Theorem toggleFavorite_count (S : gset string) (x : string) :
  favoriteCount (toggleFavorite S x)
  = (if isFavorite S x then favoriteCount S - 1 else favoriteCount S + 1) /\
  isFavorite (toggleFavorite S x) x = negb (isFavorite S x).
Proof.
  unfold favoriteCount, isFavorite.
  destruct (bool_decide_reflect (x ∈ S)) as [Hin | Hout].
  - rewrite (toggleFavorite_member S x Hin). split.
    + rewrite size_difference by set_solver. rewrite size_singleton. reflexivity.
    + apply bool_decide_eq_false. set_solver.
  - rewrite (toggleFavorite_absent S x Hout). split.
    + rewrite size_union by set_solver. rewrite size_singleton. reflexivity.
    + apply bool_decide_eq_true. set_solver.
Qed.

(** X14. Toggles of different images commute: the set of favorites does not
    depend on the order in which the two were toggled. *)
Theorem toggleFavorite_commute (S : gset string) (x y : string) :
  toggleFavorite (toggleFavorite S x) y = toggleFavorite (toggleFavorite S y) x.
Proof.
  destruct (decide (x = y)) as [-> | Hne]; [reflexivity |].
  unfold toggleFavorite. repeat case_decide; set_solver.
Qed.

End FavoritesMoreProps.

(** ** [lib/api.ts]: folders, sizes, media URLs *)
Section ApiMoreProps.
Import Api.

Lemma lastIndexOf_join (c : ascii) (folder file : string) :
  lastIndexOf c file = None ->
  lastIndexOf c (folder +:+ String c file) = Some (String.length folder).
Proof.
  intros Hfile. induction folder as [| a folder IH]; simpl.
  - rewrite Hfile, Ascii.eqb_refl. reflexivity.
  - rewrite IH. reflexivity.
Qed.

Lemma substring_prefix (a b : string) : substring 0 (String.length a) (a +:+ b) = a.
Proof.
  induction a as [| c a IH]; simpl.
  - destruct b; reflexivity.
  - f_equal. exact IH.
Qed.

(** X15. [getFolderFromPath] undoes the joining of a folder and a file name:
    for a file name without a slash, the folder of [folder/file] is [folder]
    (whatever slashes the folder has), and the folder of the bare file name
    is the empty string. *)
Theorem getFolderFromPath_join (folder file : string) :
  lastIndexOf "/" file = None ->
  getFolderFromPath (Some (folder +:+ "/" +:+ file)) = folder /\
  getFolderFromPath (Some file) = "".
Proof.
  intros Hfile. split.
  - unfold getFolderFromPath.
    replace (String.eqb (folder +:+ "/" +:+ file) "") with false
      by (destruct folder; reflexivity).
    change ("/" +:+ file) with (String "/" file).
    rewrite (lastIndexOf_join "/" folder file Hfile).
    apply substring_prefix.
  - unfold getFolderFromPath. rewrite Hfile. destruct (String.eqb file ""); reflexivity.
Qed.

Lemma getFolderFromPath_join_witness :
  getFolderFromPath (Some "trips/2024/a b.jpg") = "trips/2024".
Proof.
  exact (proj1 (getFolderFromPath_join "trips/2024" "a b.jpg" eq_refl)).
Defined.

(** *** [formatFileSize] *)

Lemma pow1024_pos (k : nat) : (0 < pow1024 k)%Q.
Proof.
  unfold pow1024. change 0%Q with (inject_Z 0). rewrite <- Zlt_Qlt.
  apply Z.pow_pos_nonneg; lia.
Qed.

Lemma pow1024_succ (k : nat) : (pow1024 (S k) == 1024 * pow1024 k)%Q.
Proof.
  unfold pow1024. rewrite Nat2Z.inj_succ, Z.pow_succ_r by lia.
  rewrite inject_Z_mult. reflexivity.
Qed.

Lemma scaleLoop_spec : forall remaining unitIndex value v k,
  unitIndex + remaining = 4 ->
  scaleLoop remaining value unitIndex = (v, k) ->
  exists j, k = unitIndex + j /\ k <= 4 /\
    (v == value / pow1024 j)%Q /\
    (k < 4 -> (v < 1024)%Q) /\
    (0 < j -> (1 <= v)%Q).
Proof.
  induction remaining as [| remaining IH]; intros unitIndex value v k Hsum Hrun;
    cbn [scaleLoop units List.length Nat.sub] in Hrun.
  - assert (Hu : (unitIndex <? 4) = false) by (apply Nat.ltb_ge; lia).
    rewrite Hu, andb_false_r in Hrun. injection Hrun as <- <-.
    exists 0. rewrite Nat.add_0_r.
    split; [reflexivity |]. split; [lia |]. split; [| split; intros; lia].
    change (pow1024 0) with 1%Q. field.
  - destruct (Qle_bool 1024 value) eqn:Hle; cbn [andb] in Hrun.
    + destruct (Nat.ltb_spec unitIndex 4) as [Hlt | Hge].
      * apply IH in Hrun as (j & -> & Hk & Hv & Hsmall & Hbig); [| lia].
        exists (S j). split; [lia |]. split; [exact Hk |].
        apply Qle_bool_iff in Hle.
        pose proof (pow1024_pos j) as Hpos.
        split; [| split; [exact Hsmall |]].
        -- rewrite Hv, pow1024_succ. field. lra.
        -- intros _. destruct j as [| j'].
           ++ rewrite Hv. change (pow1024 0) with 1%Q.
              apply Qle_shift_div_l; [reflexivity |].
              apply Qle_shift_div_l; [reflexivity |]. lra.
           ++ apply Hbig. lia.
      * injection Hrun as <- <-. exists 0. rewrite Nat.add_0_r.
        split; [reflexivity |]. split; [lia |]. split; [| split; intros; lia].
        change (pow1024 0) with 1%Q. field.
    + injection Hrun as <- <-. exists 0. rewrite Nat.add_0_r.
      split; [reflexivity |]. split; [lia |]. split; [| split; [| intros; lia]].
      * change (pow1024 0) with 1%Q. field.
      * intros _. apply Qnot_le_lt. intros H. apply Qle_bool_iff in H. congruence.
Qed.

(** X16. [formatFileSize] divides the size by 1024 as often as the unit it
    prints says: the unit is units[k] with k at most 4 (TB), the number
    printed is the size divided by 1024^k, rounded by toFixed; that number is
    below 1024 unless the unit is TB, and at least 1 unless the unit is B. *)
Theorem formatFileSize_scaled (bytes : N) :
  let scaled := scaleLoop 4 (inject_Z (Z.of_N bytes)) 0 in
  let v := scaled.1 in
  let k := scaled.2 in
  formatFileSize bytes
    = toFixed (if Qle_bool 10 v then 0 else 1) v +:+ " " +:+ nth k units "" /\
  k <= 4 /\
  (v == inject_Z (Z.of_N bytes) / pow1024 k)%Q /\
  (k < 4 -> (v < 1024)%Q) /\
  (0 < k -> (1 <= v)%Q).
Proof.
  cbv zeta. unfold formatFileSize.
  destruct (scaleLoop 4 (inject_Z (Z.of_N bytes)) 0) as [v k] eqn:Hrun.
  cbn [fst snd]. split; [reflexivity |].
  destruct (scaleLoop_spec 4 0 _ v k eq_refl Hrun) as (j & -> & Hk & Hv & Hsmall & Hbig).
  cbn [Nat.add] in *. repeat split; assumption.
Qed.

(** The expected text for a size below 1024 bytes. *)
Lemma formatFileSize_bytes_table :
  forallb (fun n =>
             String.eqb (formatFileSize (N.of_nat n))
               (if n <? 10 then decimalZ (Z.of_nat n) +:+ ".0 B"
                else decimalZ (Z.of_nat n) +:+ " B"))
    (seq 0 1024) = true.
Proof. vm_compute. reflexivity. Qed.

(** X17. Below 1024 bytes [formatFileSize] prints the number of bytes itself
    with the unit B: with one decimal, which is 0, below 10 bytes ("5.0 B"),
    and without decimals from 10 bytes on ("512 B"). *)
Theorem formatFileSize_bytes (bytes : N) :
  (bytes < 1024)%N ->
  formatFileSize bytes
  = if (bytes <? 10)%N then decimalZ (Z.of_N bytes) +:+ ".0 B"
    else decimalZ (Z.of_N bytes) +:+ " B".
Proof.
  intros Hlt.
  pose proof formatFileSize_bytes_table as Htable.
  rewrite forallb_forall in Htable.
  specialize (Htable (N.to_nat bytes)).
  rewrite N2Nat.id, <- (N_nat_Z bytes) in *.
  assert (Hin : In (N.to_nat bytes) (seq 0 1024)) by (apply in_seq; lia).
  apply Htable, String.eqb_eq in Hin. rewrite Hin.
  destruct (Nat.ltb_spec (N.to_nat bytes) 10), (N.ltb_spec bytes 10); try reflexivity; lia.
Qed.

Lemma formatFileSize_bytes_witness : formatFileSize 512 = "512 B".
Proof. exact (formatFileSize_bytes 512 eq_refl). Defined.

(** Rounding can carry into the next power: a value just below 10 prints
    as 10.0, and one just below 1024 as 1024. *)
Example formatFileSize_rounding :
  formatFileSize 10199 = "10.0 KB" /\ formatFileSize 1048575 = "1024 KB" /\
  formatFileSize 1536 = "1.5 KB" /\ formatFileSize 2000000000000000 = "1819 TB".
Proof. vm_compute. repeat split. Qed.

(** *** [resolveMediaUrl] on relative paths *)

Lemma append_cons (x : ascii) (a b : string) : String x a +:+ b = String x (a +:+ b).
Proof. reflexivity. Qed.

Lemma string_append_assoc (a b c : string) : (a +:+ b) +:+ c = a +:+ (b +:+ c).
Proof.
  induction a as [| x a IH]; [reflexivity |].
  rewrite !append_cons, IH. reflexivity.
Qed.

Lemma prefix_append (pat s : string) : String.prefix pat (pat +:+ s) = true.
Proof.
  induction pat as [| c pat IH]; [destruct s; reflexivity |].
  rewrite append_cons. cbn [String.prefix].
  destruct (ascii_dec c c); [exact IH | contradiction].
Qed.

Lemma allChars_append test (a b : string) :
  allChars test (a +:+ b) = allChars test a && allChars test b.
Proof.
  induction a as [| c a IH]; simpl; [reflexivity |].
  rewrite IH, andb_assoc. reflexivity.
Qed.

Lemma allChars_concat test sep (l : list string) :
  allChars test sep = true -> Forall (fun s => allChars test s = true) l ->
  allChars test (String.concat sep l) = true.
Proof.
  intros Hsep. induction 1 as [| s l Hs Hl IH]; [reflexivity |].
  cbn [String.concat]. destruct l as [| s' l]; [exact Hs |].
  rewrite !allChars_append, Hs, Hsep, IH. reflexivity.
Qed.

Lemma unreserved_hexDigit (n : nat) : unreserved (hexDigit n) = true.
Proof. unfold hexDigit. do 15 (destruct n as [| n]; [reflexivity |]). reflexivity. Qed.

Lemma allChars_encodeURIComponent (s : string) :
  allChars urlSafe (encodeURIComponent s) = true.
Proof.
  induction s as [| c s IH]; [reflexivity |].
  cbn [encodeURIComponent]. destruct (unreserved c) eqn:Hc.
  - cbn [allChars]. unfold urlSafe at 1. rewrite Hc, IH. reflexivity.
  - cbn [allChars]. rewrite IH. unfold urlSafe.
    rewrite !unreserved_hexDigit. reflexivity.
Qed.

Lemma allChars_encodePath (path : string) : allChars urlSafe (encodePath path) = true.
Proof.
  unfold encodePath. apply allChars_concat; [reflexivity |].
  apply Forall_map, Forall_forall. intros s _. apply allChars_encodeURIComponent.
Qed.

Lemma resolveMediaUrl_relative origin path thumbnail :
  isAbsolute path = false ->
  resolveMediaUrl origin path thumbnail
  = origin
    +:+ ((if truthy thumbnail then
            "/thumbnails/" +:+ match thumbnail with
                               | ThumbSize size => sizeName size
                               | ThumbFlag _ => "medium"
                               end +:+ "/"
          else "/media/")
         +:+ encodePath (replaceFirst "/media/" ""
                           (if startsWith path "/" then path else "/" +:+ path))).
Proof.
  intros Habs. unfold resolveMediaUrl, isAbsolute in *. rewrite Habs.
  destruct (truthy thumbnail); unfold encodePath; cbv iota.
  - rewrite !string_append_assoc. reflexivity.
  - reflexivity.
Qed.

(** X18. For a path that is not absolute, what [resolveMediaUrl] appends to
    the origin consists of unreserved characters, percent signs and slashes
    only: no space, quote, question mark or hash of a file name reaches the
    URL unescaped. *)
Theorem resolveMediaUrl_url_safe origin path thumbnail :
  isAbsolute path = false ->
  exists rest,
    resolveMediaUrl origin path thumbnail = origin +:+ rest /\
    allChars urlSafe rest = true.
Proof.
  intros Habs. rewrite (resolveMediaUrl_relative origin path thumbnail Habs).
  eexists. split; [reflexivity |].
  rewrite allChars_append, allChars_encodePath, andb_true_r.
  destruct (truthy thumbnail); [| reflexivity].
  rewrite !allChars_append. destruct thumbnail as [b | []]; reflexivity.
Qed.

Lemma resolveMediaUrl_url_safe_witness :
  exists rest,
    resolveMediaUrl "http://localhost:8000" "/media/my trip/a?b#c.jpg" (ThumbSize small)
    = "http://localhost:8000" +:+ rest /\
    allChars urlSafe rest = true.
Proof.
  exact (resolveMediaUrl_url_safe "http://localhost:8000" "/media/my trip/a?b#c.jpg"
           (ThumbSize small) eq_refl).
Defined.

(** X19. The leading slash of a relative path is optional: a path that is
    not absolute and does not start with a slash resolves to the same URL
    with and without a slash put in front of it. *)
Theorem resolveMediaUrl_leading_slash origin path thumbnail :
  isAbsolute path = false -> startsWith path "/" = false ->
  resolveMediaUrl origin ("/" +:+ path) thumbnail = resolveMediaUrl origin path thumbnail.
Proof.
  intros Habs Hslash.
  rewrite (resolveMediaUrl_relative origin path thumbnail Habs), Hslash.
  rewrite (resolveMediaUrl_relative origin ("/" +:+ path) thumbnail eq_refl).
  unfold startsWith at 1. rewrite (prefix_append "/" path). reflexivity.
Qed.

Lemma resolveMediaUrl_leading_slash_witness :
  resolveMediaUrl "" "/media/a.jpg" (ThumbFlag true)
  = resolveMediaUrl "" "media/a.jpg" (ThumbFlag true).
Proof. exact (resolveMediaUrl_leading_slash "" "media/a.jpg" (ThumbFlag true) eq_refl eq_refl). Defined.

Lemma replaceFirst_absent pat rep s : includes pat s = false -> replaceFirst pat rep s = s.
Proof.
  induction s as [| c s IH]; cbn [includes replaceFirst]; intros H;
    apply orb_false_iff in H as [Hp Hrest]; rewrite Hp; [reflexivity |].
  rewrite (IH Hrest). reflexivity.
Qed.

Lemma replaceFirst_prefix pat rep s :
  replaceFirst pat rep (pat +:+ s) = rep +:+ s.
Proof.
  assert (Hdrop : dropString (String.length pat) (pat +:+ s) = s).
  { induction pat as [| c pat IH]; [reflexivity | exact IH]. }
  pose proof (prefix_append pat s) as Hprefix.
  destruct (pat +:+ s) eqn:E; cbn [replaceFirst]; rewrite Hprefix, Hdrop; reflexivity.
Qed.

Lemma split_nonempty sep s : split sep s <> [].
Proof.
  induction s as [| c s IH]; cbn [split]; [discriminate |].
  destruct (Ascii.eqb c sep); [discriminate |].
  destruct (split sep s); [contradiction | discriminate].
Qed.

(** X20. A path under [/media/] resolves to the origin, then [/media/] or
    [/thumbnails/<size>/], then the rest of the path with its segments
    encoded: the full URL and the thumbnail URLs of an image share that
    encoded path. A relative path that does not contain [/media/] is not
    stripped, so its full URL has two slashes after [media]. *)
Theorem resolveMediaUrl_media_prefix origin path :
  (forall thumbnail,
     resolveMediaUrl origin ("/media/" +:+ path) thumbnail
     = origin
       +:+ ((if truthy thumbnail then
               "/thumbnails/" +:+ match thumbnail with
                                  | ThumbSize size => sizeName size
                                  | ThumbFlag _ => "medium"
                                  end +:+ "/"
             else "/media/")
            +:+ encodePath path)) /\
  (isAbsolute path = false -> startsWith path "/" = false ->
   includes "/media/" ("/" +:+ path) = false ->
   resolveMediaUrl origin path (ThumbFlag false)
   = origin +:+ "/media//" +:+ encodePath path).
Proof.
  split.
  - intros thumbnail.
    rewrite (resolveMediaUrl_relative origin ("/media/" +:+ path) thumbnail eq_refl).
    replace (startsWith ("/media/" +:+ path) "/") with true
      by (symmetry; apply (prefix_append "/" ("media/" +:+ path))).
    rewrite (replaceFirst_prefix "/media/" "" path). reflexivity.
  - intros Habs Hslash Hmedia.
    rewrite (resolveMediaUrl_relative origin path (ThumbFlag false) Habs), Hslash.
    rewrite (replaceFirst_absent _ _ _ Hmedia). cbn [truthy].
    unfold encodePath. change (split "/" ("/" +:+ path)) with ("" :: split "/" path).
    cbn [map String.concat encodeURIComponent].
    pose proof (split_nonempty "/" path) as Hne.
    destruct (split "/" path) as [| seg rest]; [contradiction |].
    cbn [map]. reflexivity.
Qed.

Lemma resolveMediaUrl_media_prefix_witness :
  resolveMediaUrl "http://localhost:8000" "trips/a b.jpg" (ThumbFlag false)
  = "http://localhost:8000/media//trips/a%20b.jpg".
Proof.
  exact (proj2 (resolveMediaUrl_media_prefix "http://localhost:8000" "trips/a b.jpg")
           eq_refl eq_refl eq_refl).
Defined.

End ApiMoreProps.

(** ** The timeline as a partition, and the months of the navigator *)
Section TimelineMoreProps.
Import Media Timeline.
Context `{DateApi}.

Lemma concat_Permutation {A} (l l' : list (list A)) : l ≡ₚ l' -> concat l ≡ₚ concat l'.
Proof.
  induction 1 as [| x l l' _ IH | x y l | l l' l'' _ IH1 _ IH2]; cbn [concat].
  - reflexivity.
  - rewrite IH. reflexivity.
  - rewrite !app_assoc. apply Permutation_app_tail, Permutation_app_comm.
  - etransitivity; eassumption.
Qed.

Lemma filter_none {A} (P : A -> Prop) `{!forall x, Decision (P x)} (l : list A) :
  (forall x, x ∈ l -> ~ P x) -> filter P l = [].
Proof.
  induction l as [| a l IH]; intros Hl; [reflexivity |].
  rewrite filter_cons_False by (apply Hl, list_elem_of_here).
  apply IH. intros x Hx. apply Hl, list_elem_of_further, Hx.
Qed.

Lemma pushImage_concat k x groups :
  concat (map snd (pushImage k x groups)) ≡ₚ x :: concat (map snd groups).
Proof.
  induction groups as [| [k0 i0] groups IH]; cbn [pushImage map snd concat].
  - reflexivity.
  - destruct (String.eqb k0 k); cbn [map snd concat].
    + rewrite <- app_assoc. cbn [app]. symmetry. apply Permutation_middle.
    + rewrite IH. symmetry. apply Permutation_middle.
Qed.

Lemma groupByDay_concat images : concat (map snd (groupByDay images)) ≡ₚ images.
Proof.
  induction images as [| x images IH] using rev_ind; [reflexivity |].
  unfold groupByDay in *. rewrite fold_left_app. cbn [fold_left].
  rewrite pushImage_concat, IH. apply Permutation_cons_append.
Qed.

Lemma markFrom_images groups : forall previous,
  map Timeline.images (markFrom previous groups) = map Timeline.images groups.
Proof.
  induction groups as [| g groups IH]; intros previous; [reflexivity |].
  cbn [markFrom map]. rewrite IH. f_equal.
  unfold markGroup. destruct previous as [p |]; [| reflexivity].
  destruct (negb _); [reflexivity |]. destruct (negb _); reflexivity.
Qed.

Lemma markFrom_counts groups : forall previous,
  map count (markFrom previous groups) = map count groups.
Proof.
  induction groups as [| g groups IH]; intros previous; [reflexivity |].
  cbn [markFrom map]. rewrite IH. f_equal.
  unfold markGroup. destruct previous as [p |]; [| reflexivity].
  destruct (negb _); [reflexivity |]. destruct (negb _); reflexivity.
Qed.

Lemma timelineGroups_images images :
  concat (map Timeline.images (timelineGroups images)) ≡ₚ images.
Proof.
  unfold timelineGroups. rewrite markFrom_images.
  rewrite (concat_Permutation _ (map Timeline.images (map makeGroup (groupByDay images)))).
  - rewrite map_map. erewrite map_ext; [apply groupByDay_concat |].
    intros [k imgs]. reflexivity.
  - apply Permutation_map, sortBy_Permutation.
Qed.

Lemma sum_list_concat (l : list (list ImageMetadata)) :
  sum_list (map (@List.length _) l) = List.length (concat l).
Proof.
  induction l as [| x l IH]; [reflexivity |].
  cbn [map concat sum_list sum_list_with]. rewrite length_app. cbn in IH. rewrite <- IH.
  reflexivity.
Qed.

Lemma timelineGroups_counts images :
  sum_list (map count (timelineGroups images)) = List.length images.
Proof.
  rewrite <- (Permutation_length (timelineGroups_images images)), <- sum_list_concat.
  unfold timelineGroups. rewrite markFrom_counts, markFrom_images.
  assert (Hperm : forall l : list TimelineGroup,
            Forall (fun g => count g = List.length (Timeline.images g)) l ->
            map count l = map (@List.length _) (map Timeline.images l)).
  { induction 1 as [| g l Hg _ IH]; [reflexivity |]. cbn [map]. rewrite Hg, IH. reflexivity. }
  rewrite Hperm; [reflexivity |].
  rewrite sortBy_Permutation. apply Forall_fmap, Forall_forall.
  intros [k imgs] _. reflexivity.
Qed.

(** X21. The groups of the timeline partition the images they were built
    from: put together, the images of the groups are the input images, each
    as often as it was given, and the counts of the groups add up to the
    number of input images. *)
Theorem timelineGroups_partition (images : list ImageMetadata) :
  concat (map Timeline.images (timelineGroups images)) ≡ₚ images /\
  sum_list (map count (timelineGroups images)) = List.length images.
Proof.
  split; [apply timelineGroups_images | apply timelineGroups_counts].
Qed.

(** *** The months *)

Variable localeCompare : string -> string -> Z.
Variable longMonthLabel : JsDate -> string.

Lemma addCount_keys k c groups :
  map fst (MonthNavigator.addCount k c groups)
  = if decide (k ∈ map fst groups) then map fst groups else map fst groups ++ [k].
Proof.
  induction groups as [| [k0 n0] groups IH]; cbn [MonthNavigator.addCount map fst].
  - rewrite decide_False by apply not_elem_of_nil. reflexivity.
  - destruct (String.eqb_spec k0 k) as [-> | Hne]; cbn [map fst].
    + rewrite decide_True by apply list_elem_of_here. reflexivity.
    + rewrite IH. destruct (decide (k ∈ map fst groups)) as [Hin | Hout].
      * rewrite decide_True by (apply list_elem_of_further, Hin). reflexivity.
      * rewrite decide_False; [reflexivity |].
        intros Hin. apply elem_of_cons in Hin as [-> | Hin]; contradiction.
Qed.

Lemma addCount_elem k c groups :
  NoDup (map fst groups) ->
  forall k' n', (k', n') ∈ MonthNavigator.addCount k c groups ->
    (k' <> k /\ (k', n') ∈ groups) \/
    (k' = k /\ ((exists n, (k, n) ∈ groups /\ n' = n + c) \/
                ((k ∉ map fst groups) /\ n' = c))).
Proof.
  induction groups as [| [k0 n0] groups IH]; cbn [MonthNavigator.addCount map fst];
    intros Hnd k' n' Hin.
  - apply list_elem_of_singleton in Hin as [= -> ->].
    right. split; [reflexivity |]. right. split; [apply not_elem_of_nil | reflexivity].
  - apply NoDup_cons in Hnd as [Hk0 Hnd].
    destruct (String.eqb_spec k0 k) as [-> | Hne].
    + apply elem_of_cons in Hin as [[= -> ->] | Hin].
      * right. split; [reflexivity |]. left. exists n0.
        split; [apply list_elem_of_here | reflexivity].
      * left. split; [| apply list_elem_of_further, Hin].
        intros ->. apply Hk0. apply (list_elem_of_fmap_2 fst) in Hin. exact Hin.
    + apply elem_of_cons in Hin as [[= -> ->] | Hin].
      * left. split; [exact Hne | apply list_elem_of_here].
      * destruct (IH Hnd _ _ Hin) as [[Hk Hg] | [-> [(n & Hg & ->) | [Hout ->]]]].
        -- left. split; [exact Hk | apply list_elem_of_further, Hg].
        -- right. split; [reflexivity |]. left. exists n.
           split; [apply list_elem_of_further, Hg | reflexivity].
        -- right. split; [reflexivity |]. right. split; [| reflexivity].
           intros Hin'. apply elem_of_cons in Hin' as [-> | Hin']; contradiction.
Qed.

Lemma addCount_sum k c groups :
  sum_list (map snd (MonthNavigator.addCount k c groups)) = sum_list (map snd groups) + c.
Proof.
  induction groups as [| [k0 n0] groups IH]; cbn [MonthNavigator.addCount].
  - cbn. lia.
  - destruct (String.eqb k0 k); cbn [map snd sum_list_with].
    + unfold Datatypes.id at 1 3. lia.
    + rewrite IH. unfold Datatypes.id at 1 3. lia.
Qed.

Lemma countByMonth_snoc groups g :
  MonthNavigator.countByMonth (groups ++ [g])
  = MonthNavigator.addCount (MonthNavigator.monthKeyOf g) (count g)
      (MonthNavigator.countByMonth groups).
Proof. unfold MonthNavigator.countByMonth. rewrite fold_left_app. reflexivity. Qed.

Lemma countByMonth_sum groups :
  sum_list (map snd (MonthNavigator.countByMonth groups)) = sum_list (map count groups).
Proof.
  induction groups as [| g groups IH] using rev_ind; [reflexivity |].
  rewrite countByMonth_snoc, addCount_sum, IH, map_app.
  change (sum_list (map count groups ++ map count [g]))
    with (sum_list_with Datatypes.id (map count groups ++ map count [g])).
  rewrite sum_list_with_app. cbn. unfold Datatypes.id. lia.
Qed.

(** The entries of the [Map]: one for each month among the groups, holding
    the sum of the counts of the groups of that month. *)
Lemma countByMonth_spec groups :
  NoDup (map fst (MonthNavigator.countByMonth groups)) /\
  (forall k n, (k, n) ∈ MonthNavigator.countByMonth groups ->
     n = sum_list (map count (filter (fun g => MonthNavigator.monthKeyOf g = k) groups))) /\
  (forall g, g ∈ groups ->
     MonthNavigator.monthKeyOf g ∈ map fst (MonthNavigator.countByMonth groups)).
Proof.
  induction groups as [| g groups (Hnd & Hsum & Hall)] using rev_ind.
  - split; [constructor |]. split; [| intros g Hg; inversion Hg].
    intros k n Hin. inversion Hin.
  - rewrite countByMonth_snoc. split; [| split].
    + rewrite addCount_keys. destruct (decide _) as [Hin | Hout]; [exact Hnd |].
      apply NoDup_app. split; [exact Hnd |]. split; [| apply NoDup_singleton].
      intros k Hk Hk'. apply list_elem_of_singleton in Hk' as ->. contradiction.
    + intros k n Hin. rewrite filter_app, map_app.
      change (sum_list (?a ++ ?b)) with (sum_list_with Datatypes.id (a ++ b)).
      rewrite sum_list_with_app.
      destruct (addCount_elem _ _ _ Hnd _ _ Hin) as [[Hk Hg] | [-> [(n0 & Hg & ->) | [Hout ->]]]].
      * rewrite (Hsum _ _ Hg).
        rewrite filter_cons_False by (intros Heq; apply Hk; symmetry; exact Heq).
        cbn. unfold Datatypes.id. lia.
      * rewrite (Hsum _ _ Hg). rewrite filter_cons_True by reflexivity.
        cbn. unfold Datatypes.id. lia.
      * rewrite filter_cons_True by reflexivity.
        assert (Hnone : filter (fun g0 => MonthNavigator.monthKeyOf g0
                                          = MonthNavigator.monthKeyOf g) groups = []).
        { apply filter_none. intros g0 Hg0 Heq.
          apply Hout. rewrite <- Heq. apply Hall, Hg0. }
        rewrite Hnone. cbn. unfold Datatypes.id. lia.
    + intros g0 Hg0. rewrite addCount_keys. apply elem_of_app in Hg0 as [Hg0 | Hg0].
      * destruct (decide _); [apply Hall, Hg0 |]. apply elem_of_app. left. apply Hall, Hg0.
      * apply list_elem_of_singleton in Hg0 as ->.
        destruct (decide _) as [Hin | Hout]; [exact Hin |].
        apply elem_of_app. right. apply list_elem_of_singleton. reflexivity.
Qed.

Lemma monthGroups_keys groups :
  map MonthNavigator.key (MonthNavigator.monthGroups localeCompare longMonthLabel groups)
  ≡ₚ map fst (MonthNavigator.countByMonth groups).
Proof.
  unfold MonthNavigator.monthGroups. rewrite sortBy_Permutation, map_map.
  erewrite map_ext; [reflexivity |]. intros [k n]. reflexivity.
Qed.

(** X22. The navigator has one entry for each month that occurs among the
    groups it is given; an entry counts the images of the groups of its month
    (the sum of their counts) and is labelled from the first day of the
    month. *)
Theorem monthGroups_counts (groups : list TimelineGroup) :
  let months := MonthNavigator.monthGroups localeCompare longMonthLabel groups in
  NoDup (map MonthNavigator.key months) /\
  (forall g, g ∈ groups -> MonthNavigator.monthKeyOf g ∈ map MonthNavigator.key months) /\
  (forall m, m ∈ months ->
     MonthNavigator.count m
     = sum_list (map count (filter (fun g => MonthNavigator.monthKeyOf g = MonthNavigator.key m)
                               groups)) /\
     MonthNavigator.label m = longMonthLabel (newDate (MonthNavigator.key m +:+ "-01"))).
Proof.
  cbv zeta. destruct (countByMonth_spec groups) as (Hnd & Hsum & Hall).
  split; [| split].
  - rewrite monthGroups_keys. exact Hnd.
  - intros g Hg. rewrite monthGroups_keys. apply Hall, Hg.
  - intros m Hm. unfold MonthNavigator.monthGroups in Hm.
    rewrite sortBy_Permutation in Hm.
    apply list_elem_of_fmap in Hm as ([k n] & -> & Hentry).
    cbn [MonthNavigator.count MonthNavigator.key MonthNavigator.label fst snd].
    split; [apply Hsum, Hentry | reflexivity].
Qed.

(** X23. Fed with the timeline of a list of images, as [useTimeline] does,
    the counts of the months add up to the number of images: no image is
    lost or counted twice between the gallery and the navigator. *)
Theorem monthGroups_total (images : list ImageMetadata) :
  sum_list (map MonthNavigator.count
              (MonthNavigator.monthGroups localeCompare longMonthLabel (timelineGroups images)))
  = List.length images.
Proof.
  rewrite <- timelineGroups_counts, <- countByMonth_sum.
  unfold MonthNavigator.monthGroups.
  change (sum_list (map ?f ?l)) with (sum_list_with Datatypes.id (map f l)).
  rewrite sortBy_Permutation, map_map.
  erewrite map_ext; [reflexivity |]. intros [k n]. reflexivity.
Qed.

End TimelineMoreProps.

(** ** The application shell: filters, folders, the preview, the selection *)
Section ShellProps.
Import Media App.

Lemma orString_empty a : orString a "" = a.
Proof. unfold orString. destruct (String.eqb_spec a ""); congruence. Qed.

Lemma folderOf_path image :
  Api.getFolderFromPath (Some (relative_path image)) = folderOf image.
Proof. unfold folderOf. rewrite orString_empty. reflexivity. Qed.

Lemma filter_all {A} (P : A -> Prop) `{!forall x, Decision (P x)} (l : list A) :
  (forall x, x ∈ l -> P x) -> filter P l = l.
Proof.
  induction l as [| a l IH]; intros Hl; [reflexivity |].
  rewrite filter_cons_True by (apply Hl, list_elem_of_here).
  f_equal. apply IH. intros x Hx. apply Hl, list_elem_of_further, Hx.
Qed.

(** X24. The images shown are a selection of the gallery's items, in their
    order: an item is shown exactly when it is a favourite, if the view is
    that of the favourites, and lies in the active folder, if one is active.
    Filtering what is shown again changes nothing. *)
Theorem filteredImages_selects (items : list ImageMetadata) (activeView : string)
    (favorites : gset string) (activeFolder : string) :
  let shown := filteredImages items activeView favorites activeFolder in
  shown `sublist_of` items /\
  (forall image, image ∈ shown <->
     image ∈ items /\
     (activeView = "favorites" -> id image ∈ favorites) /\
     (activeFolder <> ALL_FOLDERS -> folderOf image = activeFolder)) /\
  filteredImages shown activeView favorites activeFolder = shown.
Proof.
  cbv zeta. unfold filteredImages, ALL_FOLDERS.
  destruct (String.eqb_spec activeView "favorites") as [Hview | Hview];
    destruct (String.eqb_spec activeFolder "") as [Hfolder | Hfolder]; cbn [negb].
  - split; [apply sublist_filter |]. split.
    + intros image. rewrite list_elem_of_filter. tauto.
    + apply filter_all. intros x Hx. apply list_elem_of_filter in Hx. tauto.
  - split; [etransitivity; apply sublist_filter |]. split.
    + intros image. rewrite !list_elem_of_filter. tauto.
    + rewrite (filter_all (fun image => id image ∈ favorites)).
      * apply filter_all. intros x Hx. rewrite !list_elem_of_filter in Hx. tauto.
      * intros x Hx. rewrite !list_elem_of_filter in Hx. tauto.
  - split; [reflexivity |]. split; [| reflexivity]. intros image. tauto.
  - split; [apply sublist_filter |]. split.
    + intros image. rewrite list_elem_of_filter. tauto.
    + apply filter_all. intros x Hx. apply list_elem_of_filter in Hx. tauto.
Qed.

(** *** The folders *)

Lemma countFolder_keys k l entries :
  map key (countFolder k l entries)
  = if decide (k ∈ map key entries) then map key entries else map key entries ++ [k].
Proof.
  induction entries as [| e0 entries IH]; cbn [countFolder map key].
  - rewrite decide_False by apply not_elem_of_nil. reflexivity.
  - destruct (String.eqb_spec (key e0) k) as [<- | Hne]; cbn [map key].
    + rewrite decide_True by apply list_elem_of_here. reflexivity.
    + rewrite IH. destruct (decide (k ∈ map key entries)) as [Hin | Hout].
      * rewrite decide_True by (apply list_elem_of_further, Hin). reflexivity.
      * rewrite decide_False; [reflexivity |].
        intros Hin. apply elem_of_cons in Hin as [-> | Hin];
          [apply Hne; reflexivity | contradiction].
Qed.

Lemma countFolder_elem k l entries :
  NoDup (map key entries) ->
  forall e', e' ∈ countFolder k l entries ->
    (key e' <> k /\ e' ∈ entries) \/
    (key e' = k /\
     ((exists e, e ∈ entries /\ key e = k /\ label e' = label e /\ count e' = count e + 1) \/
      ((k ∉ map key entries) /\ label e' = l /\ count e' = 1))).
Proof.
  induction entries as [| e0 entries IH]; cbn [countFolder map key]; intros Hnd e' Hin.
  - apply list_elem_of_singleton in Hin as ->. cbn.
    right. split; [reflexivity |]. right. split; [apply not_elem_of_nil | split; reflexivity].
  - apply NoDup_cons in Hnd as [Hk0 Hnd].
    destruct (String.eqb_spec (key e0) k) as [Heq | Hne].
    + apply elem_of_cons in Hin as [-> | Hin].
      * right. cbn. split; [exact Heq |]. left. exists e0.
        split; [apply list_elem_of_here | repeat split; exact Heq].
      * left. split; [| apply list_elem_of_further, Hin].
        intros Hk. apply Hk0. rewrite Heq, <- Hk.
        apply (list_elem_of_fmap_2 key) in Hin. exact Hin.
    + apply elem_of_cons in Hin as [-> | Hin].
      * left. split; [exact Hne | apply list_elem_of_here].
      * destruct (IH Hnd _ Hin) as [[Hk He] | [Hk [(e & He & Hke & Hl & Hc) | (Hout & Hl & Hc)]]].
        -- left. split; [exact Hk | apply list_elem_of_further, He].
        -- right. split; [exact Hk |]. left. exists e.
           split; [apply list_elem_of_further, He | repeat split; assumption].
        -- right. split; [exact Hk |]. right. split; [| split; assumption].
           intros Hin'. apply elem_of_cons in Hin' as [-> | Hin'];
             [apply Hne; reflexivity | contradiction].
Qed.

Lemma countFolder_sum k l entries :
  sum_list (map count (countFolder k l entries)) = sum_list (map count entries) + 1.
Proof.
  induction entries as [| e0 entries IH]; cbn [countFolder].
  - reflexivity.
  - destruct (String.eqb (key e0) k); cbn [map count sum_list_with].
    + unfold Datatypes.id at 1 3. lia.
    + rewrite IH. unfold Datatypes.id at 1 3. lia.
Qed.

Lemma folderEntries_snoc items image :
  folderEntries (items ++ [image])
  = countFolder (folderOf image) (orString (folderOf image) "Root") (folderEntries items).
Proof.
  unfold folderEntries. rewrite fold_left_app. cbn [fold_left].
  rewrite folderOf_path, orString_empty. reflexivity.
Qed.

(** The values of the [Map]: one entry for each folder among the items,
    counting the items of the folder. *)
Lemma folderEntries_spec items :
  NoDup (map key (folderEntries items)) /\
  (forall e, e ∈ folderEntries items ->
     label e = orString (key e) "Root" /\
     count e = List.length (filter (fun image => folderOf image = key e) items) /\
     1 <= count e) /\
  (forall image, image ∈ items -> folderOf image ∈ map key (folderEntries items)) /\
  sum_list (map count (folderEntries items)) = List.length items.
Proof.
  induction items as [| x items (Hnd & Hentries & Hall & Hsum)] using rev_ind.
  - split; [constructor |]. split; [intros e He; inversion He |].
    split; [intros image Hi; inversion Hi | reflexivity].
  - rewrite folderEntries_snoc. split; [| split; [| split]].
    + rewrite countFolder_keys. destruct (decide _) as [Hin | Hout]; [exact Hnd |].
      apply NoDup_app. split; [exact Hnd |]. split; [| apply NoDup_singleton].
      intros k Hk Hk'. apply list_elem_of_singleton in Hk' as ->. contradiction.
    + intros e He. rewrite filter_app, length_app.
      destruct (countFolder_elem _ _ _ Hnd _ He)
        as [[Hk Hg] | [Hk [(e0 & He0 & Hke & Hl & Hc) | (Hout & Hl & Hc)]]].
      * destruct (Hentries _ Hg) as (Hlabel & Hcount & Hpos).
        rewrite filter_cons_False by (intros Heq; apply Hk; symmetry; exact Heq).
        cbn [List.length filter list_filter]. split; [exact Hlabel |]. split; [lia | exact Hpos].
      * destruct (Hentries _ He0) as (Hlabel & Hcount & Hpos).
        rewrite filter_cons_True by (symmetry; exact Hk).
        cbn [List.length filter list_filter]. rewrite Hl, Hc, Hlabel, Hk, Hke.
        split; [reflexivity |]. split; [| lia]. rewrite Hcount, Hke. reflexivity.
      * rewrite filter_cons_True by (symmetry; exact Hk).
        rewrite (filter_none (fun image => folderOf image = key e)).
        -- rewrite Hl, Hc, Hk. split; [reflexivity |]. split; [reflexivity | lia].
        -- intros image Himage Heq. apply Hout. rewrite <- Hk, <- Heq. apply Hall, Himage.
    + intros image Himage. rewrite countFolder_keys.
      apply elem_of_app in Himage as [Himage | Himage].
      * destruct (decide _); [apply Hall, Himage |]. apply elem_of_app. left. apply Hall, Himage.
      * apply list_elem_of_singleton in Himage as ->.
        destruct (decide _) as [Hin | Hout]; [exact Hin |].
        apply elem_of_app. right. apply list_elem_of_singleton. reflexivity.
    + rewrite countFolder_sum, Hsum, length_app. reflexivity.
Qed.

(** X25. The folder chips, whatever the collation: one chip for each folder
    that holds an item, with distinct keys; a chip counts the items of its
    folder, and is labelled with the folder, the chip of the items outside
    any folder with Root; the counts add up to the number of items. *)
Theorem folderSummary_counts (localeCompare : string -> string -> Z)
    (items : list ImageMetadata) :
  let chips := folderSummary localeCompare items in
  NoDup (map key chips) /\
  (forall image, image ∈ items -> folderOf image ∈ map key chips) /\
  (forall chip, chip ∈ chips ->
     label chip = (if String.eqb (key chip) "" then "Root" else key chip) /\
     count chip = List.length (filter (fun image => folderOf image = key chip) items) /\
     1 <= count chip) /\
  sum_list (map count chips) = List.length items.
Proof.
  cbv zeta. unfold folderSummary.
  destruct (folderEntries_spec items) as (Hnd & Hentries & Hall & Hsum).
  pose proof (sortBy_Permutation
                (fun a b => localeCompare (label a) (label b)) (folderEntries items)) as Hperm.
  split; [| split; [| split]].
  - rewrite Hperm. exact Hnd.
  - intros image Himage. rewrite Hperm. apply Hall, Himage.
  - intros chip Hchip. rewrite Hperm in Hchip. apply Hentries, Hchip.
  - rewrite Hperm. exact Hsum.
Qed.

(** X26. Choosing a chip, outside the favourites view: the chip of a folder
    shows as many images as it counts; the chip of the items outside any
    folder has the key that stands for all folders, and shows every item. *)
Theorem folder_chip_selection (localeCompare : string -> string -> Z)
    (items : list ImageMetadata) (activeView : string) (favorites : gset string)
    (chip : FolderEntry) :
  chip ∈ folderSummary localeCompare items ->
  activeView <> "favorites" ->
  List.length (filteredImages items activeView favorites (key chip))
  = if String.eqb (key chip) "" then List.length items else count chip.
Proof.
  intros Hchip Hview. unfold folderSummary in Hchip.
  rewrite sortBy_Permutation in Hchip.
  destruct (folderEntries_spec items) as (_ & Hentries & _ & _).
  destruct (Hentries _ Hchip) as (_ & Hcount & _).
  unfold filteredImages, ALL_FOLDERS.
  destruct (String.eqb_spec activeView "favorites") as [Heq | _]; [contradiction |].
  destruct (String.eqb (key chip) ""); cbn [negb]; [reflexivity |].
  symmetry. exact Hcount.
Qed.

Lemma folder_chip_selection_witness :
  let chip := {| key := ""; label := "Root"; count := 1 |} in
  chip ∈ folderSummary ShellSamples.codeUnitCompare ShellSamples.shelf /\
  List.length (filteredImages ShellSamples.shelf "all" ∅ (key chip)) = 4.
Proof.
  cbv zeta. assert (Hchip : {| key := ""; label := "Root"; count := 1 |}
                            ∈ folderSummary ShellSamples.codeUnitCompare ShellSamples.shelf).
  { vm_compute. apply list_elem_of_here. }
  split; [exact Hchip |].
  apply (folder_chip_selection ShellSamples.codeUnitCompare ShellSamples.shelf "all" ∅ _ Hchip).
  discriminate.
Defined.

(** *** The preview *)

Lemma findIndex_range {A} (test : A -> bool) (l : list A) :
  findIndex test l = (-1)%Z \/
  exists i a, findIndex test l = Z.of_nat i /\ l !! i = Some a /\ test a = true.
Proof.
  induction l as [| a l IH]; cbn [findIndex]; [left; reflexivity |].
  destruct (test a) eqn:Ha.
  - right. exists 0, a. repeat split; assumption.
  - destruct IH as [-> | (i & b & -> & Hb & Htest)]; [left; reflexivity |].
    right. exists (S i), b. destruct (Z.eqb_spec (Z.of_nat i) (-1)) as [Hneg | _]; [lia |].
    split; [lia |]. split; assumption.
Qed.

Lemma findIndex_first {A} (test : A -> bool) (l : list A) : forall i a,
  l !! i = Some a -> test a = true ->
  (forall j b, j < i -> l !! j = Some b -> test b = false) ->
  findIndex test l = Z.of_nat i.
Proof.
  induction l as [| a0 l IH]; intros i a Hi Ha Hbefore; [inversion Hi |].
  cbn [findIndex]. destruct i as [| i].
  - cbn in Hi. injection Hi as ->. rewrite Ha. reflexivity.
  - rewrite (Hbefore 0 a0) by (reflexivity || lia).
    rewrite (IH i a Hi Ha) by (intros j b Hj Hb; apply (Hbefore (S j) b); [lia | exact Hb]).
    destruct (Z.eqb_spec (Z.of_nat i) (-1)); lia.
Qed.

Lemma previewIndex_unique filtered i p :
  NoDup (map id filtered) -> filtered !! i = Some p ->
  previewIndex filtered (Some p) = Z.of_nat i.
Proof.
  intros Hnd Hi. unfold previewIndex. apply (findIndex_first _ _ i p Hi).
  - apply String.eqb_refl.
  - intros j b Hj Hb. apply String.eqb_neq. intros Heq.
    assert (j = i); [| lia].
    apply (NoDup_lookup (map id filtered) j i (id p) Hnd).
    + rewrite list_lookup_fmap, Hb. cbn. rewrite Heq. reflexivity.
    + rewrite list_lookup_fmap, Hi. reflexivity.
Qed.

(** X27. In a list without repeated ids, the handlers step through
    neighbours and undo each other: from an image that has a successor,
    showNextImage opens the successor, and showPreviousImage leads back from
    there; the flags for the arrows are set accordingly. *)
Theorem preview_next_then_previous (filtered : list ImageMetadata) (i : nat)
    (p q : ImageMetadata) :
  NoDup (map id filtered) ->
  filtered !! i = Some p -> filtered !! S i = Some q ->
  showNextImage filtered (Some p) = Some q /\
  showPreviousImage filtered (Some q) = Some p /\
  previewHasNext filtered (Some p) = true /\
  previewHasPrev filtered (Some q) = true.
Proof.
  intros Hnd Hp Hq.
  pose proof (lookup_lt_Some _ _ _ Hq) as Hlen.
  unfold showNextImage, showPreviousImage, previewHasNext, previewHasPrev.
  rewrite (previewIndex_unique _ _ _ Hnd Hp), (previewIndex_unique _ _ _ Hnd Hq).
  destruct (Z.eqb_spec (Z.of_nat i) (-1)) as [Hneg | _]; [lia |].
  destruct (Z.ltb_spec (Z.of_nat i) (Z.of_nat (List.length filtered) - 1)) as [_ | Hge]; [| lia].
  destruct (Z.ltb_spec 0 (Z.of_nat (S i))) as [_ | Hge]; [| lia].
  destruct (Z.leb_spec 0 (Z.of_nat i)) as [_ | Hlt]; [| lia].
  cbn [negb andb].
  replace (Z.to_nat (Z.of_nat i + 1)) with (S i) by lia.
  replace (Z.to_nat (Z.of_nat (S i) - 1)) with i by lia.
  repeat split; assumption.
Qed.

Lemma preview_next_then_previous_witness :
  showNextImage ShellSamples.shelf (Some (ShellSamples.imageIn 1 "b.jpg"))
  = Some (ShellSamples.imageIn 2 "trips/rome/c.jpg").
Proof.
  refine (proj1 (preview_next_then_previous ShellSamples.shelf 1 _ _ _ eq_refl eq_refl)).
  vm_compute. repeat constructor; intros Hin;
    repeat (apply elem_of_cons in Hin as [Hin | Hin]; [discriminate |]); inversion Hin.
Defined.

(** X28. With a preview open, the handlers never leave the lightbox without
    an image: each of them keeps the preview or opens an image of the list
    shown. *)
Theorem preview_never_lost (filtered : list ImageMetadata) (p : ImageMetadata) :
  (exists q, showNextImage filtered (Some p) = Some q /\ (q = p \/ q ∈ filtered)) /\
  (exists q, showPreviousImage filtered (Some p) = Some q /\ (q = p \/ q ∈ filtered)).
Proof.
  unfold showNextImage, showPreviousImage, previewIndex.
  destruct (findIndex_range (fun image => String.eqb (id image) (id p)) filtered)
    as [-> | (i & a & -> & Ha & _)].
  - cbn. split; exists p; (split; [reflexivity | left; reflexivity]).
  - pose proof (lookup_lt_Some _ _ _ Ha) as Hlen. split.
    + destruct (negb _ && _) eqn:Htest; [| exists p; split; [reflexivity | left; reflexivity]].
      apply andb_prop in Htest as [_ Hlt]. apply Z.ltb_lt in Hlt.
      destruct (lookup_lt_is_Some_2 filtered (Z.to_nat (Z.of_nat i + 1))) as [q Hq]; [lia |].
      exists q. split; [exact Hq | right; apply list_elem_of_lookup_2 in Hq; exact Hq].
    + destruct (Z.ltb_spec 0 (Z.of_nat i)) as [Hpos | _];
        [| exists p; split; [reflexivity | left; reflexivity]].
      destruct (lookup_lt_is_Some_2 filtered (Z.to_nat (Z.of_nat i - 1))) as [q Hq]; [lia |].
      exists q. split; [exact Hq | right; apply list_elem_of_lookup_2 in Hq; exact Hq].
Qed.

(** *** The selected person *)

(** X29. A selection that the effect leaves standing, if it is not the
    empty string, was the selection before, was made in the Faces view, and
    names a person of the list: activePerson finds that person. *)
Theorem clearStaleSelection_valid (activeView : string) (persons : list People.PersonItem)
    (selectedPersonId : option string) (selected : string) :
  clearStaleSelection activeView persons selectedPersonId = Some selected ->
  selected <> "" ->
  activeView = "faces" /\ selectedPersonId = Some selected /\
  exists person, activePerson persons (Some selected) = Some person /\
                 person ∈ persons /\ People.id person = selected.
Proof.
  unfold clearStaleSelection, activePerson. intros Hkept Hne.
  destruct (String.eqb_spec activeView "faces") as [Hview | Hview]; [| discriminate].
  cbn [negb] in Hkept. destruct (List.length persons =? 0); [discriminate |].
  destruct selectedPersonId as [s |]; [| discriminate].
  destruct (String.eqb_spec s "") as [Hs | Hs]; cbn [negb andb] in Hkept.
  - injection Hkept as <-. contradiction.
  - destruct (existsb _ persons) eqn:Hsome; cbn [negb] in Hkept; [| discriminate].
    injection Hkept as <-. split; [exact Hview |]. split; [reflexivity |].
    destruct (find (fun p => String.eqb (People.id p) s) persons) as [person |] eqn:Hfind.
    + exists person. split; [reflexivity |].
      apply find_some in Hfind as [Hin Heq]. apply String.eqb_eq in Heq.
      split; [apply list_elem_of_In, Hin | exact Heq].
    + exfalso. apply existsb_exists in Hsome as (person & Hin & Heq).
      apply (find_none _ _ Hfind) in Hin. congruence.
Qed.

Lemma clearStaleSelection_valid_witness :
  exists person, activePerson ShellSamples.family (Some "p2") = Some person /\
                 person ∈ ShellSamples.family /\ People.id person = "p2".
Proof.
  refine (proj2 (proj2 (clearStaleSelection_valid "faces" ShellSamples.family
                          (Some "p2") "p2" eq_refl _))).
  discriminate.
Defined.

(** *** The grid after a failed load *)

(** X30. When the first page is refused and the load is not cancelled, the
    grid shows the error panel with the message of the error, whatever items
    the gallery still holds; only an error whose message is empty leaves the
    grid to the items kept, or to the empty state when none is shown. *)
Theorem failed_load_rendering (gallery : Gallery.GalleryState) (srv : Server)
    (cancelled : nat -> bool) (fuel : nat) (st : Gallery.GalleryState) (e : Thrown)
    (activeView : string) (favorites : gset string) (activeFolder : string) :
  srv 1 30 = Rejected e -> cancelled 1 = false ->
  let final := Gallery.final (Gallery.load gallery srv cancelled fuel st) in
  let kept := filteredImages (Gallery.items st) activeView favorites activeFolder in
  ImageGrid.render
    (filteredImages (Gallery.items final) activeView favorites activeFolder)
    (Gallery.loading final) (Gallery.error final)
  = match Gallery.errorMessage e with
    | EmptyString => if List.length kept =? 0 then ImageGrid.EmptyState else ImageGrid.Grid kept
    | message => ImageGrid.ErrorState message
    end.
Proof.
  intros Hrej Hc. cbv zeta. unfold Gallery.load. rewrite Hrej, Hc.
  cbn [negb Gallery.done Gallery.final Gallery.items Gallery.loading Gallery.error].
  unfold ImageGrid.render. destruct (Gallery.errorMessage e); reflexivity.
Qed.

Lemma failed_load_rendering_witness :
  let st := {| Gallery.items := Samples.library 2; Gallery.total := Fin 2;
               Gallery.loading := false; Gallery.error := None |} in
  let final := Gallery.final
                 (Gallery.load st (Samples.failingServer "Request failed with status 500")
                    Samples.neverCancelled 5 st) in
  ImageGrid.render (filteredImages (Gallery.items final) "all" ∅ ALL_FOLDERS)
    (Gallery.loading final) (Gallery.error final)
  = ImageGrid.ErrorState "Request failed with status 500".
Proof.
  cbv zeta.
  exact (failed_load_rendering _ (Samples.failingServer "Request failed with status 500")
           Samples.neverCancelled 5 _ (ErrorObject "Request failed with status 500")
           "all" ∅ ALL_FOLDERS eq_refl eq_refl).
Defined.

End ShellProps.
